(** * The dilemma scheduler: a shallow embedding and its properties

    This development embeds the delayed-job scheduler of the dilemma
    backend ([src/services/scheduler.service.ts]), the cache helpers it
    calls ([src/config/database.ts], class [CacheService]) and the
    statistics aggregate of [StatsService.getGlobalStats]
    ([src/services/dilemma.service.ts]).

    The TypeScript code is asynchronous code over external collaborators:
    the Bull queue, the Redis client, the Prisma client, the clock and
    [JSON].  A program is therefore embedded as a command tree ([Prog]):
    every call to a collaborator is a node ([Vis]) whose continuation
    receives either the value the collaborator returned or the error it
    threw (an [await] on a rejected promise throws).  [try_catch] is the
    [try { } catch { }] statement.  Programs are run against a handler that
    plays the collaborators; a run yields a result, the final world and the
    list of calls made.

    [console.log] and [console.error] are not modelled: they neither
    change control flow nor touch a collaborator.  Time values are integer
    milliseconds; [getStats], [getUpcomingJobs], [cleanup] and [shutdown]
    are not embedded, no property below concerns them.

    The Bull queue is not part of the sources.  The job store, the retry
    policy, the repetition of the daily job and the worker loop are
    modelled from the specification; each such definition says so. *)

From Stdlib Require Import ZArith Floats Lia Bool Ascii.
From stdpp Require Import gmap strings list sorting pretty.

Local Open Scope Z_scope.

(** ** JavaScript data *)

(** An error value ([throw error], a rejected promise). *)
Inductive JsError : Type :=
  | Error (message : string).

(** A [Date]: a time value in milliseconds since the epoch, or an invalid
    date, whose [getTime()] is [NaN]. *)
Inductive Date : Type :=
  | DateAt (ms : Z)
  | InvalidDate.

(** [date.getTime()]: [None] stands for [NaN]. *)
Definition getTime (d : Date) : option Z :=
  match d with
  | DateAt ms => Some ms
  | InvalidDate => None
  end.

(** [x - now] on time values; [NaN - now] is [NaN]. *)
Definition minus_now (x : option Z) (now : Z) : option Z :=
  match x with
  | Some t => Some (t - now)
  | None => None
  end.

(** [x > 0]; [NaN > 0] is [false]. *)
Definition positive_delay (x : option Z) : option Z :=
  match x with
  | Some d => if 0 <? d then Some d else None
  | None => None
  end.

(** A JSON-like JavaScript value.  Numbers are IEEE 754 doubles. *)
#[warnings="-register-all"] Inductive JsValue : Type :=
  | JNull
  | JBool (b : bool)
  | JNumber (x : float)
  | JString (s : string)
  | JObject (fields : list (string * JsValue)).

(** Truthiness of a value, as tested by [if (cached)]. *)
Definition truthy (v : JsValue) : bool :=
  match v with
  | JNull => false
  | JBool b => b
  | JNumber x => negb (PrimFloat.eqb x 0 || PrimFloat.is_nan x)
  | JString s => negb (String.eqb s "")
  | JObject _ => true
  end.

(** A Redis string value.  The text that [JSON.stringify] produces for a
    value [v] is represented by [JsonOf v]; any other text is [Text]. *)
Inductive RedisString : Type :=
  | Text (s : string)
  | JsonOf (v : JsValue).

(** [!cached] for a value read from Redis ([null] or the empty string). *)
Definition missing (cached : option RedisString) : bool :=
  match cached with
  | None => true
  | Some (Text s) => String.eqb s ""
  | Some (JsonOf _) => false
  end.

(** ** The domain rows the scheduler reads *)

Inductive Choice : Type := A | B.

Record Dilemma : Type := {
  dilemma_id : string;
  publishDate : Z;
  revealTime : Z;
}.

Record Vote : Type := {
  vote_dilemmaId : string;
  vote_choice : Choice;
}.

(** ** Jobs of the queue *)

(** The three job names of [setupWorkers]:
    ['publish'], ['reveal'] and ['daily-scheduler']. *)
Inductive JobName : Type := publish | reveal | daily_scheduler.

Inductive JobState : Type := Pending | Ready | Active | Completed | Failed.

(** [interface DilemmaJobData { dilemmaId: string }]; the daily job is
    added with the empty object. *)
Record DilemmaJobData : Type := {
  dilemmaId : option string;
}.

Record RepeatOptions : Type := {
  cron : string;
}.

(** The options object passed to [queue.add]. *)
Record JobOptions : Type := {
  delay : option Z;
  jobId : option string;
  repeat : option RepeatOptions;
}.

Inductive BackoffType : Type := exponential | fixed.

Record BackoffOptions : Type := {
  backoff_type : BackoffType;
  backoff_delay : Z;
}.

Record DefaultJobOptions : Type := {
  removeOnComplete : Z;
  removeOnFail : Z;
  attempts : Z;
  backoff : BackoffOptions;
}.

(** The [defaultJobOptions] of the constructor of [SchedulerService]. *)
Definition defaultJobOptions : DefaultJobOptions :=
  {| removeOnComplete := 100;
     removeOnFail := 500;
     attempts := 3;
     backoff := {| backoff_type := exponential; backoff_delay := 2000 |} |}.

(** A job as the queue holds it (data model of the specification, §3). *)
Record Job : Type := {
  job_id : string;
  job_name : JobName;
  job_data : DilemmaJobData;
  job_notBefore : Z;
  job_state : JobState;
  job_attempts : Z;
  job_maxAttempts : Z;
  job_createdAt : Z;
  job_lastAttemptAt : option Z;
  job_repeat : option RepeatOptions;
}.

(** ** Calls to the collaborators *)

Inductive Eff : Type -> Type :=
  (* clock: [Date.now()], [new Date()] *)
  | DateNow : Eff Z
  (* Bull: [queue.add(name, data, opts)], [queue.getJob(id)], [job.remove()] *)
  | QueueAdd (name : JobName) (data : DilemmaJobData) (opts : JobOptions) : Eff unit
  | QueueGetJob (id : string) : Eff (option Job)
  | JobRemove (job : Job) : Eff unit
  (* Prisma: [dilemma.findMany({ where: { publishDate: { gt } },
     orderBy: { publishDate: 'asc' } })] and
     [vote.count({ where: { dilemmaId, choice? } })] *)
  | DilemmaFindMany (publishDate_gt : Z) : Eff (list Dilemma)
  | VoteCount (dilemmaId : string) (choice : option Choice) : Eff float
  (* ioredis *)
  | RedisGet (key : string) : Eff (option RedisString)
  | RedisSet (key : string) (value : RedisString) : Eff unit
  | RedisSetex (key : string) (seconds : Z) (value : RedisString) : Eff unit
  | RedisDel (keys : list string) : Eff unit
  | RedisKeys (pattern : string) : Eff (list string)
  | RedisExists (key : string) : Eff Z
  (* [JSON.parse], [JSON.stringify] *)
  | JSONParse (text : RedisString) : Eff JsValue
  | JSONStringify (value : JsValue) : Eff RedisString.

(** ** Programs *)

Inductive Prog (R : Type) : Type :=
  | Ret (r : R)
  | Throw (e : JsError)
  | Vis {X : Type} (call : Eff X) (k : JsError + X -> Prog R).

Arguments Ret {R} r.
Arguments Throw {R} e.
Arguments Vis {R X} call k.

Fixpoint bind {R S : Type} (p : Prog R) (f : R -> Prog S) : Prog S :=
  match p with
  | Ret r => f r
  | Throw e => Throw e
  | Vis call k => Vis call (fun x => bind (k x) f)
  end.

(** [try { p } catch (error) { h error }] *)
Fixpoint try_catch {R : Type} (p : Prog R) (h : JsError -> Prog R) : Prog R :=
  match p with
  | Ret r => Ret r
  | Throw e => h e
  | Vis call k => Vis call (fun x => try_catch (k x) h)
  end.

(** [await call]: the value, or the error thrown. *)
Definition await {X : Type} (call : Eff X) : Prog X :=
  Vis call (fun x => match x with inl e => Throw e | inr v => Ret v end).

Declare Scope prog_scope.
Delimit Scope prog_scope with prog.
Notation "'let*' x ':=' p 'in' q" := (bind p (fun x => q))
  (at level 10, x name, p at level 100, q at level 200) : prog_scope.
Notation "'do*' p 'in' q" := (bind p (fun _ => q))
  (at level 10, p at level 100, q at level 200) : prog_scope.
Local Open Scope prog_scope.

(** [for (const x of xs) { await body(x) }] *)
Fixpoint for_of {X : Type} (xs : list X) (body : X -> Prog unit) : Prog unit :=
  match xs with
  | [] => Ret tt
  | x :: rest => do* body x in for_of rest body
  end.

(** [await Promise.all([call1, call2])]: both calls are issued, in order,
    before either result is awaited; a rejection rejects the whole, the
    first call's first. *)
Definition Promise_all2 {X Y : Type} (call1 : Eff X) (call2 : Eff Y) : Prog (X * Y) :=
  Vis call1 (fun x =>
  Vis call2 (fun y =>
    match x, y with
    | inr a, inr b => Ret (a, b)
    | inl e, _ => Throw e
    | inr _, inl e => Throw e
    end)).

(** ** Running a program *)

(** A call together with what the collaborator answered. *)
Inductive Call : Type :=
  | Called {X : Type} (call : Eff X) (answer : JsError + X).

Definition Handler (W : Type) : Type :=
  forall X : Type, Eff X -> W -> (JsError + X) * W.

Record Outcome (W R : Type) : Type := {
  result : JsError + R;
  world : W;
  trace : list Call;
}.

Arguments result {W R} o.
Arguments world {W R} o.
Arguments trace {W R} o.

Fixpoint run {W R : Type} (h : Handler W) (p : Prog R) (w : W) : Outcome W R :=
  match p with
  | Ret r => {| result := inr r; world := w; trace := [] |}
  | Throw e => {| result := inl e; world := w; trace := [] |}
  | Vis call k =>
      let '(x, w1) := h _ call w in
      let o := run h (k x) w1 in
      {| result := result o; world := world o; trace := Called call x :: trace o |}
  end.

(** The call was answered with an error. *)
Definition failed (c : Call) : Prop :=
  match c with
  | Called _ (inl _) => True
  | Called _ (inr _) => False
  end.

(** ** [CacheService] and the cache constants ([src/config/database.ts]) *)

(** [retryStrategy(times)] of the Redis client: the delay in milliseconds
    before reconnection attempt [times]. *)
Definition retryStrategy (times : Z) : Z :=
  let delay := Z.min (times * 50) 2000 in
  delay.

(** [export const CACHE_KEYS], the keys used here. *)
Module CACHE_KEYS.

Definition DILEMMA_TODAY : string := "dilemma:today".

Definition DILEMMA_TOMORROW : string := "dilemma:tomorrow".

Definition STATS_GLOBAL (dilemmaId : string) : string :=
  "stats:global:" +:+ dilemmaId.

Definition STATS_DEMOGRAPHIC (dilemmaId filter : string) : string :=
  "stats:demo:" +:+ dilemmaId +:+ ":" +:+ filter.

Definition STATS_FRIENDS (dilemmaId userId : string) : string :=
  "stats:friends:" +:+ dilemmaId +:+ ":" +:+ userId.

Definition DILEMMA_BY_ID (id : string) : string := "dilemma:" +:+ id.

Definition USER_PROFILE (userId : string) : string := "user:" +:+ userId.

End CACHE_KEYS.

(** [export const CACHE_TTL], in seconds. *)
Module CACHE_TTL.

Definition DILEMMA : Z := 3600.

Definition STATS : Z := 60.

Definition USER : Z := 1800.

End CACHE_TTL.

Module CacheService.

(** [static async get<T>(key): Promise<T | null>] *)
Definition get (key : string) : Prog JsValue :=
  try_catch
    (let* cached := await (RedisGet key) in
     if missing cached then Ret JNull
     else
       match cached with
       | Some text => await (JSONParse text)
       | None => Ret JNull
       end)
    (fun _ => Ret JNull).

(** [static async set(key, value, expirationSeconds?): Promise<void>];
    [if (expirationSeconds)] is false for [undefined] and for [0]. *)
Definition set (key : string) (value : JsValue) (expirationSeconds : option Z)
  : Prog unit :=
  try_catch
    (let* serialized := await (JSONStringify value) in
     match expirationSeconds with
     | Some seconds =>
         if seconds =? 0 then await (RedisSet key serialized)
         else await (RedisSetex key seconds serialized)
     | None => await (RedisSet key serialized)
     end)
    (fun _ => Ret tt).

(** [static async del(...keys): Promise<void>] *)
Definition del (keys : list string) : Prog unit :=
  try_catch
    (if 0 <? Z.of_nat (length keys) then await (RedisDel keys) else Ret tt)
    (fun _ => Ret tt).

(** [static async delPattern(pattern): Promise<void>] *)
Definition delPattern (pattern : string) : Prog unit :=
  try_catch
    (let* keys := await (RedisKeys pattern) in
     if 0 <? Z.of_nat (length keys) then await (RedisDel keys) else Ret tt)
    (fun _ => Ret tt).

(** [static async exists(key): Promise<boolean>] *)
Definition exists_ (key : string) : Prog bool :=
  try_catch
    (let* result := await (RedisExists key) in
     Ret (result =? 1))
    (fun _ => Ret false).

End CacheService.

(** [`${x}`] for a string that may be [undefined]. *)
Definition template (x : option string) : string :=
  match x with
  | Some s => s
  | None => "undefined"
  end.

(** ** JavaScript numbers *)

(** The double of an integer (exact below 2^53). *)
Definition float_of_Z (z : Z) : float :=
  match z with
  | Z0 => 0%float
  | Zpos _ => PrimFloat.of_uint63 (Uint63.of_Z z)
  | Zneg p => (- PrimFloat.of_uint63 (Uint63.of_Z (Zpos p)))%float
  end.

(** [Math.round(x)]: the integer nearest to [x], a tie going towards
    positive infinity; [NaN], the infinities and the zeros are returned
    as they are, and a result of zero for a negative [x] is [-0]. *)
Definition Math_round (x : float) : float :=
  match Prim2SF x with
  | S754_finite s m e =>
      if 0 <=? e then x
      else
        let d := 2 ^ (- e) in
        let num := if s then Zneg m else Zpos m in
        let n := (2 * num + d) / (2 * d) in
        if (n =? 0) && s then (-0)%float else float_of_Z n
  | _ => x
  end.

(** The shape [{ totalVotes, choiceA: { count, percentage },
    choiceB: { count, percentage } }] of the aggregate. *)
Definition stats_object (totalVotes countA pctA countB pctB : float) : JsValue :=
  JObject
    [ ("totalVotes", JNumber totalVotes);
      ("choiceA", JObject [("count", JNumber countA); ("percentage", JNumber pctA)]);
      ("choiceB", JObject [("count", JNumber countB); ("percentage", JNumber pctB)]) ].

(** ** [DilemmaService.isRevealed] ([src/services/dilemma.service.ts]) *)

Module DilemmaService.


(** [x || d] on a number that may be [undefined]: [d] when [x] is
    [undefined], [NaN] (both [None]) or [0]. *)
Definition or_default (x : option Z) (d : Z) : Z :=
  match x with
  | Some v => if v =? 0 then d else v
  | None => d
  end.

(** [const limitDays = isPremium ? (days || 365) : Math.min(days || 7, 7)]
    of [static async getHistory(userId, isPremium, days?)]; [days] is the
    [parseInt] of the query parameter, an integer or [NaN], or
    [undefined]. *)
Definition limitDays (isPremium : bool) (days : option Z) : Z :=
  if isPremium then or_default days 365 else Z.min (or_default days 7) 7.

End DilemmaService.

(** The local calendar fields of a [Date], as [getFullYear()],
    [getMonth()] and [getDate()] return them. *)
Record LocalDate : Type := {
  getFullYear : Z;
  getMonth : Z;
  getDate : Z;
}.

(** ** [StatsService.getGlobalStats] ([src/services/dilemma.service.ts]) *)

Module StatsService.

(** The object literal [stats] of [getGlobalStats], with its
    [const votesB = totalVotes - votesA]. *)
Definition stats (totalVotes votesA : float) : JsValue :=
  let votesB := (totalVotes - votesA)%float in
  stats_object totalVotes
    votesA
    (if (0 <? totalVotes)%float
     then Math_round ((votesA / totalVotes) * 100)%float else 0%float)
    votesB
    (if (0 <? totalVotes)%float
     then Math_round ((votesB / totalVotes) * 100)%float else 0%float).

(** [static async getGlobalStats(dilemmaId)] *)
Definition getGlobalStats (dilemmaId : string) : Prog JsValue :=
  let cacheKey := CACHE_KEYS.STATS_GLOBAL dilemmaId in
  let* cached := CacheService.get cacheKey in
  if truthy cached then Ret cached
  else
    let* counts :=
      Promise_all2 (VoteCount dilemmaId None) (VoteCount dilemmaId (Some A)) in
    let '(totalVotes, votesA) := counts in
    let stats := stats totalVotes votesA in
    do* CacheService.set cacheKey stats (Some CACHE_TTL.STATS) in
    Ret stats.

(** [private static calculateAge(birthDate: Date): number]; [today] holds
    the calendar fields of the [new Date()] the function takes. *)
Definition calculateAge (today birthDate : LocalDate) : Z :=
  let age := getFullYear today - getFullYear birthDate in
  let monthDiff := getMonth today - getMonth birthDate in
  if (monthDiff <? 0) || ((monthDiff =? 0) && (getDate today <? getDate birthDate))
  then age - 1
  else age.

(** [private static getAgeRange(age: number): string] *)
Definition getAgeRange (age : Z) : string :=
  if age <? 18 then "0-17"
  else if age <? 25 then "18-24"
  else if age <? 35 then "25-34"
  else if age <? 50 then "35-49"
  else if age <? 65 then "50-64"
  else "65+".

End StatsService.

(** ** [SchedulerService] ([src/services/scheduler.service.ts]) *)

Module SchedulerService.

(** [async scheduleDilemma(dilemmaId, publishDate, revealTime)] *)
Definition scheduleDilemma (dilemmaId : string) (publishDate revealTime : Date)
  : Prog unit :=
  let* now := await DateNow in
  let publishDelay := minus_now (getTime publishDate) now in
  let revealDelay := minus_now (getTime revealTime) now in
  do* match positive_delay publishDelay with
      | Some publishDelay =>
          await (QueueAdd publish
                   {| dilemmaId := Some dilemmaId |}
                   {| delay := Some publishDelay;
                      jobId := Some ("publish-" +:+ dilemmaId);
                      repeat := None |})
      | None => Ret tt
      end in
  match positive_delay revealDelay with
  | Some revealDelay =>
      await (QueueAdd reveal
               {| dilemmaId := Some dilemmaId |}
               {| delay := Some revealDelay;
                  jobId := Some ("reveal-" +:+ dilemmaId);
                  repeat := None |})
  | None => Ret tt
  end.

(** [private async scheduleFutureDilemmas()] *)
Definition scheduleFutureDilemmas : Prog unit :=
  let* today := await DateNow in
  let* futureDilemmas := await (DilemmaFindMany today) in
  for_of futureDilemmas (fun dilemma =>
    scheduleDilemma (dilemma_id dilemma)
      (DateAt (publishDate dilemma)) (DateAt (revealTime dilemma))).

(** [async unscheduleDilemma(dilemmaId)] *)
Definition unscheduleDilemma (dilemmaId : string) : Prog unit :=
  let publishJobId := "publish-" +:+ dilemmaId in
  let revealJobId := "reveal-" +:+ dilemmaId in
  let* jobs :=
    Promise_all2 (QueueGetJob publishJobId) (QueueGetJob revealJobId) in
  let '(publishJob, revealJob) := jobs in
  do* match publishJob with
      | Some job => await (JobRemove job)
      | None => Ret tt
      end in
  match revealJob with
  | Some job => await (JobRemove job)
  | None => Ret tt
  end.

(** [async rescheduleDilemma(dilemmaId, publishDate, revealTime)] *)
Definition rescheduleDilemma (dilemmaId : string) (publishDate revealTime : Date)
  : Prog unit :=
  do* unscheduleDilemma dilemmaId in
  scheduleDilemma dilemmaId publishDate revealTime.

(** [private async setupDailyCron()] *)
Definition setupDailyCron : Prog unit :=
  await (QueueAdd daily_scheduler
           {| dilemmaId := None |}
           {| delay := None;
              jobId := Some "daily-scheduler";
              repeat := Some {| cron := "0 0 * * *" |} |}).

(** The object literal [stats] of [precalculateStats]. *)
Definition stats (totalVotes votesA : float) : JsValue :=
  stats_object totalVotes
    votesA
    (if (0 <? totalVotes)%float
     then Math_round ((votesA / totalVotes) * 100)%float else 0%float)
    (totalVotes - votesA)%float
    (if (0 <? totalVotes)%float
     then Math_round (((totalVotes - votesA) / totalVotes) * 100)%float
     else 0%float).

(** [private async precalculateStats(dilemmaId)] *)
Definition precalculateStats (dilemmaId : string) : Prog unit :=
  try_catch
    (let* totalVotes := await (VoteCount dilemmaId None) in
     let* votesA := await (VoteCount dilemmaId (Some A)) in
     let stats := stats totalVotes votesA in
     CacheService.set ("stats:global:" +:+ dilemmaId) stats (Some 3600))
    (fun _ => Ret tt).

(** The processors registered by [setupWorkers].  [job.data.dilemmaId]
    is [undefined] in a job added with the empty object, and is then
    rendered by its template literal; no publish or reveal job is added
    that way by this service. *)
Definition process (name : JobName) (job : Job) : Prog unit :=
  match name with
  | publish =>
      try_catch
        (CacheService.del ["dilemma:today"; "dilemma:tomorrow"])
        (fun error => Throw error)
  | reveal =>
      let dilemmaId := template (dilemmaId (job_data job)) in
      try_catch
        (do* CacheService.delPattern ("stats:*:" +:+ dilemmaId +:+ "*") in
         precalculateStats dilemmaId)
        (fun error => Throw error)
  | daily_scheduler => scheduleFutureDilemmas
  end.

(** [async init()], after [setupWorkers]. *)
Definition init : Prog unit :=
  do* scheduleFutureDilemmas in
  setupDailyCron.

End SchedulerService.

(** ** The job store

    The queue is the Bull library, which is not part of the repository's
    sources.  Its behaviour is taken from the specification (§3, §4.1,
    §4.2, §4.4, §4.5), with the constants of [defaultJobOptions] and the
    cron expression of [setupDailyCron].  The store is a list of jobs, so
    that a duplicate entry for an id is representable and its absence is a
    property to prove. *)

Module JobStore.

(** The job has the given id. *)
Definition has_id (id : string) (j : Job) : Prop := job_id j = id.

#[global] Instance has_id_dec id j : Decision (has_id id j).
Proof. unfold has_id. apply _. Defined.

(** A job is live while it is not in a terminal state. *)
Definition live (j : Job) : Prop :=
  job_state j <> Completed /\ job_state j <> Failed.

#[global] Instance JobState_eq_dec : EqDecision JobState.
Proof. solve_decision. Defined.

#[global] Instance live_dec j : Decision (live j).
Proof. unfold live. apply _. Defined.

(** The job [j] in state [st]. *)
Definition with_state (st : JobState) (j : Job) : Job :=
  {| job_id := job_id j; job_name := job_name j; job_data := job_data j;
     job_notBefore := job_notBefore j; job_state := st;
     job_attempts := job_attempts j; job_maxAttempts := job_maxAttempts j;
     job_createdAt := job_createdAt j; job_lastAttemptAt := job_lastAttemptAt j;
     job_repeat := job_repeat j |}.

(** The job [j], pending until [notBefore]. *)
Definition arm (notBefore : Z) (j : Job) : Job :=
  {| job_id := job_id j; job_name := job_name j; job_data := job_data j;
     job_notBefore := notBefore; job_state := Pending;
     job_attempts := job_attempts j; job_maxAttempts := job_maxAttempts j;
     job_createdAt := job_createdAt j; job_lastAttemptAt := job_lastAttemptAt j;
     job_repeat := job_repeat j |}.

(** The job [j] claimed at [now]: one more execution attempt. *)
Definition start (now : Z) (j : Job) : Job :=
  {| job_id := job_id j; job_name := job_name j; job_data := job_data j;
     job_notBefore := job_notBefore j; job_state := Active;
     job_attempts := job_attempts j + 1; job_maxAttempts := job_maxAttempts j;
     job_createdAt := job_createdAt j; job_lastAttemptAt := Some now;
     job_repeat := job_repeat j |}.

(** Modelled from the spec: [getJob] of the Bull queue (§4.1, lookup by
    id). *)
Definition getJob (id : string) (s : list Job) : option Job :=
  head (filter (has_id id) s).

(** Modelled from the spec: [remove(jobId)] (§4.1): deletes a job in any
    state; no-op if absent. *)
Definition remove (id : string) (s : list Job) : list Job :=
  filter (fun j => ~ has_id id j) s.

(** Modelled from the spec: [enqueue(job, delay)] (§4.1): inserts or
    replaces the job keyed by id, sets [notBefore = now + delay] and
    [state = Pending] if [delay > 0], else rejects. *)
Definition enqueue (now : Z) (j : Job) (delay : Z) (s : list Job)
  : JsError + list Job :=
  if 0 <? delay
  then inr (arm (now + delay) j :: remove (job_id j) s)
  else inl (Error "delay must be positive").

(** Modelled from the spec: the decision of the RetryPolicy (§4.2),
    [Decision{Retry(delay) | GiveUp}]. *)
Inductive RetryDecision : Type :=
  | Retry (delay : Z)
  | GiveUp.

(** Modelled from the spec: RetryPolicy (§4.2), a function of the
    post-increment [attempts] and [maxAttempts]: while
    [attempts < maxAttempts] the next delay is [base * 2^(attempts-1)],
    with [base] the [backoff.delay] of [defaultJobOptions]. *)
Definition retryPolicy (attempts maxAttempts : Z) : RetryDecision :=
  if attempts <? maxAttempts
  then Retry (backoff_delay (backoff defaultJobOptions) * 2 ^ (attempts - 1))
  else GiveUp.

(** 24 hours, in milliseconds. *)
Definition DAY : Z := 24 * 60 * 60 * 1000.

(** Modelled from the spec: the repeat option of the Bull queue (§4.3
    [armDailyReconcile]).  The cron expression of [setupDailyCron] fires
    at every local midnight; local time is UTC plus a fixed offset
    [tz] (no daylight-saving change).  Other expressions are not
    supported. *)
Definition cronNext (tz : Z) (expr : string) (now : Z) : option Z :=
  if decide (expr = "0 0 * * *")
  then Some (((now + tz) / DAY + 1) * DAY - tz)
  else None.

(** Modelled from the spec: a pending job becomes [Ready] when its
    [notBefore] has elapsed (§4.4, state machine). *)
Definition promote (now : Z) (j : Job) : Job :=
  match job_state j with
  | Pending => if job_notBefore j <=? now then with_state Ready j else j
  | _ => j
  end.

(** Modelled from the spec: the selection of [claimDue(limit)] (§4.1): up
    to [limit] ready jobs become [Active]; each claim is an execution
    attempt. *)
Fixpoint claim (now : Z) (limit : nat) (s : list Job) : list Job * list Job :=
  match s with
  | [] => ([], [])
  | j :: rest =>
      match limit, job_state j with
      | S limit', Ready =>
          let '(claimed, rest') := claim now limit' rest in
          (start now j :: claimed, start now j :: rest')
      | _, _ =>
          let '(claimed, rest') := claim now limit rest in
          (claimed, j :: rest')
      end
  end.

(** Modelled from the spec: [claimDue(limit)], after the jobs whose delay
    has elapsed have become ready; the claimed jobs and the new store. *)
Definition claimDue (now : Z) (limit : nat) (s : list Job) : list Job * list Job :=
  claim now limit (promote now <$> s).

(** Modelled from the spec: [complete(jobId)] (§4.1): [Active] to
    [Completed]; a repeating job is re-armed for its next occurrence
    (§4.5). *)
Definition complete1 (tz now : Z) (id : string) (j : Job) : Job :=
  if decide (has_id id j) then
    match job_state j with
    | Active =>
        match job_repeat j with
        | Some r =>
            match cronNext tz (cron r) now with
            | Some next =>
                {| job_id := job_id j; job_name := job_name j;
                   job_data := job_data j;
                   job_notBefore := next; job_state := Pending;
                   job_attempts := 0; job_maxAttempts := job_maxAttempts j;
                   job_createdAt := now;
                   job_lastAttemptAt := job_lastAttemptAt j;
                   job_repeat := job_repeat j |}
            | None => with_state Completed j
            end
        | None => with_state Completed j
        end
    | _ => j
    end
  else j.

(** Modelled from the spec: [complete(jobId)] on the store. *)
Definition complete (tz now : Z) (id : string) (s : list Job) : list Job :=
  complete1 tz now id <$> s.

(** Modelled from the spec: [fail(jobId, error)] (§4.1): [Active] to
    [Pending], re-armed with the backoff delay, or to [Failed], as the
    RetryPolicy decides from [attempts]. *)
Definition fail1 (now : Z) (id : string) (j : Job) : Job :=
  if decide (has_id id j) then
    match job_state j with
    | Active =>
        match retryPolicy (job_attempts j) (job_maxAttempts j) with
        | Retry delay => arm (now + delay) j
        | GiveUp => with_state Failed j
        end
    | _ => j
    end
  else j.

(** Modelled from the spec: [fail(jobId, error)] on the store. *)
Definition fail (now : Z) (id : string) (s : list Job) : list Job :=
  fail1 now id <$> s.

End JobStore.

(** ** The collaborators

    A world holds the job store, the clock, the database rows and the
    Redis keys, with two switches that make Redis or the database
    unreachable.  The clock is a sequence of readings: each [Date.now()]
    and each time stamp taken by the queue consumes one, so that time may
    pass between any two calls. *)

(** Redis glob matching for [KEYS]: [*] matches any run of characters and
    [?] any one character.  Character classes and escapes are not
    modelled; their characters match themselves. *)
Fixpoint glob (pattern : list ascii) : list ascii -> bool :=
  match pattern with
  | [] => fun text => match text with [] => true | _ => false end
  | c :: pattern' =>
      if Ascii.eqb c "*"%char then
        fix star (text : list ascii) : bool :=
          glob pattern' text
          || match text with
             | [] => false
             | _ :: text' => star text'
             end
      else
        fun text =>
          match text with
          | [] => false
          | d :: text' =>
              (Ascii.eqb c "?"%char || Ascii.eqb c d) && glob pattern' text'
          end
  end.

(** The key matches the pattern. *)
Definition matches (pattern key : string) : bool :=
  glob (String.list_ascii_of_string pattern) (String.list_ascii_of_string key).

(** The state of the collaborators: the job store, the clock and the
    readings taken so far, the offset of local time from UTC, the counter
    of generated job ids, the tables, the Redis keys with their values and
    expiry in seconds, and the two switches. *)
Record World : Type := {
  jobs : list Job;
  clock : nat -> Z;
  reads : nat;
  tzOffset : Z;
  nextId : nat;
  dilemmas : list Dilemma;
  votes : list Vote;
  cache : gmap string (RedisString * option Z);
  redisUp : bool;
  prismaUp : bool;
}.

(** The world with another job store. *)
Definition set_jobs (s : list Job) (w : World) : World :=
  {| jobs := s; clock := clock w; reads := reads w; tzOffset := tzOffset w;
     nextId := nextId w; dilemmas := dilemmas w; votes := votes w;
     cache := cache w; redisUp := redisUp w; prismaUp := prismaUp w |}.

(** The world with other Redis keys. *)
Definition set_cache (c : gmap string (RedisString * option Z)) (w : World) : World :=
  {| jobs := jobs w; clock := clock w; reads := reads w; tzOffset := tzOffset w;
     nextId := nextId w; dilemmas := dilemmas w; votes := votes w;
     cache := c; redisUp := redisUp w; prismaUp := prismaUp w |}.

(** The world after a job id has been generated. *)
Definition bump_id (w : World) : World :=
  {| jobs := jobs w; clock := clock w; reads := reads w; tzOffset := tzOffset w;
     nextId := S (nextId w); dilemmas := dilemmas w; votes := votes w;
     cache := cache w; redisUp := redisUp w; prismaUp := prismaUp w |}.

(** The current reading of the clock. *)
Definition time (w : World) : Z := clock w (reads w).

(** The world after one reading of the clock. *)
Definition tick (w : World) : World :=
  {| jobs := jobs w; clock := clock w; reads := S (reads w); tzOffset := tzOffset w;
     nextId := nextId w; dilemmas := dilemmas w; votes := votes w;
     cache := cache w; redisUp := redisUp w; prismaUp := prismaUp w |}.

(** [orderBy: { publishDate: 'asc' }] *)
Definition earlier (d1 d2 : Dilemma) : Prop := publishDate d1 <= publishDate d2.

#[global] Instance earlier_dec d1 d2 : Decision (earlier d1 d2).
Proof. unfold earlier. apply _. Defined.

(** [where: { publishDate: { gt: today } }] *)
Definition future (today : Z) (d : Dilemma) : Prop := today < publishDate d.

#[global] Instance future_dec today d : Decision (future today d).
Proof. unfold future. apply _. Defined.

(** [findMany({ where: { publishDate: { gt } }, orderBy: { publishDate: 'asc' } })] *)
Definition findMany (gt : Z) (rows : list Dilemma) : list Dilemma :=
  merge_sort earlier (filter (future gt) rows).

#[global] Instance Choice_eq_dec : EqDecision Choice.
Proof. solve_decision. Defined.

(** [where: { dilemmaId, choice }], the choice being optional. *)
Definition counted (dilemmaId : string) (choice : option Choice) (v : Vote) : Prop :=
  vote_dilemmaId v = dilemmaId /\
  match choice with
  | Some c => vote_choice v = c
  | None => True
  end.

#[global] Instance counted_dec dilemmaId choice v : Decision (counted dilemmaId choice v).
Proof. unfold counted. destruct choice; apply _. Defined.

(** [vote.count({ where })] *)
Definition count (dilemmaId : string) (choice : option Choice) (rows : list Vote) : float :=
  float_of_Z (Z.of_nat (length (filter (counted dilemmaId choice) rows))).

(** Modelled from the spec: the job a call [queue.add(name, data, opts)]
    defines (§3): [attempts] starts at 0 and [maxAttempts] is the
    [attempts] of [defaultJobOptions]. *)
Definition new_job (now : Z) (id : string) (name : JobName) (data : DilemmaJobData)
  (opts : JobOptions) : Job :=
  {| job_id := id; job_name := name; job_data := data;
     job_notBefore := now; job_state := Pending;
     job_attempts := 0; job_maxAttempts := attempts defaultJobOptions;
     job_createdAt := now; job_lastAttemptAt := None;
     job_repeat := repeat opts |}.

(** The errors the collaborators throw. *)
Definition redis_down : JsError := Error "ECONNREFUSED".

Definition prisma_down : JsError := Error "PrismaClientInitializationError".

Definition syntax_error : JsError := Error "SyntaxError".

Definition unsupported_cron : JsError := Error "unsupported cron expression".

(** Modelled from the spec: [queue.add] of the Bull queue, as the
    [enqueue] of §4.1.  The job is stamped with a reading of the clock; a
    job without [jobId] gets a generated id; the delay of a repeating job
    runs to the next occurrence of its cron expression. *)
Definition queue_add (name : JobName) (data : DilemmaJobData) (opts : JobOptions)
  (w : World) : (JsError + unit) * World :=
  let now := time w in
  let w := tick w in
  let '(id, w) :=
    match jobId opts with
    | Some id => (id, w)
    | None => (pretty (nextId w), bump_id w)
    end in
  let wanted :=
    match repeat opts with
    | Some r =>
        match JobStore.cronNext (tzOffset w) (cron r) now with
        | Some next => inr (next - now)
        | None => inl unsupported_cron
        end
    | None => inr (default 0 (delay opts))
    end in
  match wanted with
  | inl e => (inl e, w)
  | inr d =>
      match JobStore.enqueue now (new_job now id name data opts) d (jobs w) with
      | inr s => (inr tt, set_jobs s w)
      | inl e => (inl e, w)
      end
  end.

(** The answer of Redis: [answer] and the world [w'] when it is
    reachable, an error and the world unchanged when it is not. *)
Definition redis {X : Type} (w : World) (answer : X) (w' : World)
  : (JsError + X) * World :=
  if redisUp w then (inr answer, w') else (inl redis_down, w).

(** The answer of the database, likewise. *)
Definition prisma {X : Type} (w : World) (answer : X) : (JsError + X) * World :=
  if prismaUp w then (inr answer, w) else (inl prisma_down, w).

(** The collaborators as a handler: the clock, the queue over the job
    store, Prisma over the two tables, Redis over the keys, and [JSON]. *)
Definition collaborators : Handler World :=
  fun X call =>
    match call in Eff X return World -> (JsError + X) * World with
    | DateNow => fun w => (inr (time w), tick w)
    | QueueAdd name data opts => queue_add name data opts
    | QueueGetJob id => fun w => (inr (JobStore.getJob id (jobs w)), w)
    | JobRemove job => fun w =>
        (inr tt, set_jobs (JobStore.remove (job_id job) (jobs w)) w)
    | DilemmaFindMany gt => fun w => prisma w (findMany gt (dilemmas w))
    | VoteCount dilemmaId choice => fun w => prisma w (count dilemmaId choice (votes w))
    | RedisGet key => fun w => redis w (fst <$> cache w !! key) w
    | RedisSet key value => fun w =>
        redis w tt (set_cache (<[key := (value, None)]> (cache w)) w)
    | RedisSetex key seconds value => fun w =>
        redis w tt (set_cache (<[key := (value, Some seconds)]> (cache w)) w)
    | RedisDel keys => fun w =>
        redis w tt (set_cache (foldr delete (cache w) keys) w)
    | RedisKeys pattern => fun w =>
        redis w (filter (fun key => matches pattern key = true)
                   (map_to_list (cache w)).*1) w
    | RedisExists key => fun w =>
        redis w (match cache w !! key with Some _ => 1 | None => 0 end) w
    | JSONParse text => fun w =>
        match text with
        | JsonOf v => (inr v, w)
        | Text _ => (inl syntax_error, w)
        end
    | JSONStringify value => fun w => (inr (JsonOf value), w)
    end.

(** ** The worker loop *)

(** Modelled from the spec: the guarded scope of the WorkerLoop (§4.4): a
    claimed job runs the processor registered for its name; the job is
    completed when the processor returns and failed when it throws. *)
Definition execute (j : Job) (w : World) : World :=
  let o := run collaborators (SchedulerService.process (job_name j) j) w in
  let w1 := world o in
  let now := time w1 in
  match result o with
  | inr _ =>
      set_jobs (JobStore.complete (tzOffset w1) now (job_id j) (jobs w1)) (tick w1)
  | inl _ =>
      set_jobs (JobStore.fail now (job_id j) (jobs w1)) (tick w1)
  end.

(** Modelled from the spec: one poll of a worker (§4.4): claim the due
    jobs and execute them. *)
Definition poll (batchSize : nat) (w : World) : World :=
  let now := time w in
  let '(claimed, s) := JobStore.claimDue now batchSize (jobs w) in
  foldl (fun w j => execute j w) (set_jobs s (tick w)) claimed.

(** ** Vocabulary of the properties *)

(** The arguments of a call, when it is a call [queue.add]. *)
Definition added (c : Call) : option (JobName * DilemmaJobData * JobOptions) :=
  match c with
  | Called (QueueAdd name data opts) _ => Some (name, data, opts)
  | Called _ _ => None
  end.

(** The arguments of the calls [queue.add] of a trace, in order. *)
Definition adds (t : list Call) : list (JobName * DilemmaJobData * JobOptions) :=
  omap added t.

(** The arguments with which [scheduleDilemma] adds a job. *)
Definition add_args (name : JobName) (prefix dilemmaId : string) (d : Z)
  : JobName * DilemmaJobData * JobOptions :=
  (name, {| dilemmaId := Some dilemmaId |},
   {| delay := Some d; jobId := Some (prefix +:+ dilemmaId); repeat := None |}).

(** The world after a successful [queue.add] of such a job. *)
Definition put (name : JobName) (prefix dilemmaId : string) (d : Z) (w : World) : World :=
  let '(_, data, opts) := add_args name prefix dilemmaId d in
  set_jobs
    (JobStore.arm (time w + d) (new_job (time w) (prefix +:+ dilemmaId) name data opts)
       :: JobStore.remove (prefix +:+ dilemmaId) (jobs w))
    (tick w).

(** The world after [scheduleDilemma] has added the job, or skipped it. *)
Definition put_if (name : JobName) (prefix dilemmaId : string) (d : option Z)
  (w : World) : World :=
  match d with
  | Some d => put name prefix dilemmaId d w
  | None => w
  end.

(** The call [queue.add] that [scheduleDilemma] makes for a target, when
    its delay is positive. *)
Definition add_call (name : JobName) (prefix dilemmaId : string) (d : option Z)
  : list Call :=
  match d with
  | Some d =>
      let '(_, data, opts) := add_args name prefix dilemmaId d in
      [Called (QueueAdd name data opts) (inr tt)]
  | None => []
  end.

(** A job with the given id is enqueued by some [queue.add] of the trace. *)
Definition enqueued (name : JobName) (id : string) (t : list Call) : Prop :=
  exists data opts, In (name, data, opts) (adds t) /\ jobId opts = Some id.

(** The job that [scheduleDilemma] puts in the store. *)
Definition scheduled (name : JobName) (prefix dilemmaId : string)
  (stamp d : Z) : Job :=
  {| job_id := prefix +:+ dilemmaId; job_name := name;
     job_data := {| dilemmaId := Some dilemmaId |};
     job_notBefore := stamp + d; job_state := Pending;
     job_attempts := 0; job_maxAttempts := 3;
     job_createdAt := stamp; job_lastAttemptAt := None;
     job_repeat := None |}.

(** The calls [job.remove()] that [unscheduleDilemma] makes for a job it
    has found. *)
Definition remove_call (found : option Job) : list Call :=
  match found with
  | Some job => [Called (JobRemove job) (inr tt)]
  | None => []
  end.

(** The id of the job removed, when the call is a call [job.remove()]. *)
Definition removed (c : Call) : option string :=
  match c with
  | Called (JobRemove job) _ => Some (job_id job)
  | Called _ _ => None
  end.

(** The ids of the jobs removed by the calls [job.remove()] of a trace. *)
Definition removes (t : list Call) : list string := omap removed t.

(** The id, when the store holds a job of that id. *)
Definition present (id : string) (s : list Job) : list string :=
  match JobStore.getJob id s with
  | Some _ => [id]
  | None => []
  end.

(** The [k]-th reading of the clock from now on. *)
Definition reading (w : World) (k : nat) : Z := clock w (reads w + k)%nat.

(** Any two rows are ordered by [publishDate]. *)
#[global] Instance earlier_total : Total earlier.
Proof. intros d1 d2. unfold earlier. lia. Qed.

(** The calls of a [for ... of] loop, body after body. *)
Fixpoint for_of_trace {W X : Type} (h : Handler W) (body : X -> Prog unit)
  (xs : list X) (w : W) : list Call :=
  match xs with
  | [] => []
  | x :: rest =>
      trace (run h (body x) w)
        ++ for_of_trace h body rest (world (run h (body x) w))
  end.

(** [scheduleDilemma] for a row of the table. *)
Definition schedule_row (d : Dilemma) : Prog unit :=
  SchedulerService.scheduleDilemma (dilemma_id d)
    (DateAt (publishDate d)) (DateAt (revealTime d)).

(** The steps the store operations make a job take (§4.4, state machine
    of a single job). *)
Inductive job_step : Job -> Job -> Prop :=
  | step_promote (now : Z) (j : Job) :
      job_step j (JobStore.promote now j)
  | step_start (now : Z) (j : Job) :
      job_state j = Ready -> job_step j (JobStore.start now j)
  | step_complete (tz now : Z) (id : string) (j : Job) :
      job_step j (JobStore.complete1 tz now id j)
  | step_fail (now : Z) (id : string) (j : Job) :
      job_step j (JobStore.fail1 now id j).

(** The operations of the worker loop on the store. *)
Inductive StoreOp : Type :=
  | OpClaimDue (now : Z) (limit : nat)
  | OpComplete (tz now : Z) (id : string)
  | OpFail (now : Z) (id : string).

(** The store after an operation of the worker loop. *)
Definition apply_op (s : list Job) (op : StoreOp) : list Job :=
  match op with
  | OpClaimDue now limit => (JobStore.claimDue now limit s).2
  | OpComplete tz now id => JobStore.complete tz now id s
  | OpFail now id => JobStore.fail now id s
  end.

(** The job that [setupDailyCron] puts in the store. *)
Definition daily_job (stamp notBefore : Z) : Job :=
  {| job_id := "daily-scheduler"; job_name := daily_scheduler;
     job_data := {| dilemmaId := None |};
     job_notBefore := notBefore; job_state := Pending;
     job_attempts := 0; job_maxAttempts := 3;
     job_createdAt := stamp; job_lastAttemptAt := None;
     job_repeat := Some {| cron := "0 0 * * *" |} |}.

(** The calls to the Redis client. *)
Definition cache_eff {X : Type} (call : Eff X) : Prop :=
  match call with
  | RedisGet _ | RedisSet _ _ | RedisSetex _ _ _
  | RedisDel _ | RedisKeys _ | RedisExists _ => True
  | _ => False
  end.

(** The call is a call to the Redis client. *)
Definition cache_call (c : Call) : Prop :=
  match c with
  | Called call _ => cache_eff call
  end.

(** A failed call to a collaborator other than the cache store. *)
Definition other_failure (c : Call) : Prop := failed c /\ ~ cache_call c.

(** A program that throws only after such a failure. *)
Definition honest {W R : Type} (h : Handler W) (p : Prog R) : Prop :=
  forall w e, result (run h p w) = inl e -> Exists other_failure (trace (run h p w)).

(** The keys [KEYS pattern] returns. *)
Definition keys_matching (pattern : string) (w : World) : list string :=
  filter (fun key => matches pattern key = true) (map_to_list (cache w)).*1.

(** ** Vocabulary of the further properties *)

(** A command sent to Redis. *)
Inductive RedisOp : Type :=
  | GET (key : string)
  | SET (key : string)
  | SETEX (key : string) (seconds : Z)
  | DEL (keys : list string)
  | KEYS (pattern : string)
  | EXISTS (key : string).

(** The command, when the call is a call to the Redis client. *)
Definition redis_op (c : Call) : option RedisOp :=
  match c with
  | Called (RedisGet key) _ => Some (GET key)
  | Called (RedisSet key _) _ => Some (SET key)
  | Called (RedisSetex key seconds _) _ => Some (SETEX key seconds)
  | Called (RedisDel keys) _ => Some (DEL keys)
  | Called (RedisKeys pattern) _ => Some (KEYS pattern)
  | Called (RedisExists key) _ => Some (EXISTS key)
  | Called _ _ => None
  end.

(** The commands sent to Redis in a trace, in order. *)
Definition redis_ops (t : list Call) : list RedisOp := omap redis_op t.

(** The call is a query of the database. *)
Definition db_query (c : Call) : option unit :=
  match c with
  | Called (DilemmaFindMany _) _ | Called (VoteCount _ _) _ => Some tt
  | Called _ _ => None
  end.

(** The queries of the database in a trace. *)
Definition db_queries (t : list Call) : list unit := omap db_query t.

(** The expiry [CacheService.set] gives a key. *)
Definition expiry (expirationSeconds : option Z) : option Z :=
  match expirationSeconds with
  | Some seconds => if seconds =? 0 then None else Some seconds
  | None => None
  end.

(** The calendar date [a] is before the calendar date [b]. *)
Definition before (a b : LocalDate) : Prop :=
  getFullYear a < getFullYear b \/
  (getFullYear a = getFullYear b /\
   (getMonth a < getMonth b \/
    (getMonth a = getMonth b /\ getDate a < getDate b))).

(** The [k]-th anniversary of a calendar date. *)
Definition anniversary (k : Z) (d : LocalDate) : LocalDate :=
  {| getFullYear := getFullYear d + k; getMonth := getMonth d; getDate := getDate d |}.

(** The jobs of the store that are not the two jobs of the dilemma, in
    the order of the store. *)
Definition others (dilemmaId : string) (s : list Job) : list Job :=
  filter (fun j => job_id j <> "publish-" +:+ dilemmaId /\
                   job_id j <> "reveal-" +:+ dilemmaId) s.

(** ** A concrete world *)

Module Demo.

(** One clock reading per millisecond from 1000; local time is UTC+1. *)
Definition w0 : World :=
  {| jobs := [];
     clock := fun n => 1000 + Z.of_nat n;
     reads := 0;
     tzOffset := 3600000;
     nextId := 0;
     dilemmas :=
       [ {| dilemma_id := "d2"; publishDate := 9000; revealTime := 9500 |};
         {| dilemma_id := "d1"; publishDate := 5000; revealTime := 7000 |};
         {| dilemma_id := "d0"; publishDate := 500; revealTime := 700 |} ];
     votes :=
       [ {| vote_dilemmaId := "d1"; vote_choice := A |};
         {| vote_dilemmaId := "d1"; vote_choice := B |};
         {| vote_dilemmaId := "d1"; vote_choice := B |};
         {| vote_dilemmaId := "d2"; vote_choice := A |} ];
     cache := {[ "stats:demo:d1:18-24" := (Text "stale", Some 60) ]};
     redisUp := true;
     prismaUp := true |}.

(** The reveal job of dilemma [d1], claimed by a worker for a first
    attempt. *)
Definition reveal_d1 : Job :=
  {| job_id := "reveal-d1"; job_name := reveal;
     job_data := {| dilemmaId := Some "d1" |};
     job_notBefore := 900; job_state := Active;
     job_attempts := 1; job_maxAttempts := 3;
     job_createdAt := 100; job_lastAttemptAt := Some 1000;
     job_repeat := None |}.

(** The job [j] after [n] execution attempts. *)
Definition with_attempts (n : Z) (j : Job) : Job :=
  {| job_id := job_id j; job_name := job_name j; job_data := job_data j;
     job_notBefore := job_notBefore j; job_state := job_state j;
     job_attempts := n; job_maxAttempts := job_maxAttempts j;
     job_createdAt := job_createdAt j; job_lastAttemptAt := job_lastAttemptAt j;
     job_repeat := job_repeat j |}.

(** The world with Redis unreachable. *)
Definition redis_down (w : World) : World :=
  {| jobs := jobs w; clock := clock w; reads := reads w; tzOffset := tzOffset w;
     nextId := nextId w; dilemmas := dilemmas w; votes := votes w;
     cache := cache w; redisUp := false; prismaUp := prismaUp w |}.

(** The world with the database unreachable. *)
Definition prisma_down (w : World) : World :=
  {| jobs := jobs w; clock := clock w; reads := reads w; tzOffset := tzOffset w;
     nextId := nextId w; dilemmas := dilemmas w; votes := votes w;
     cache := cache w; redisUp := redisUp w; prismaUp := false |}.

(** The store holds the claimed reveal job. *)
Definition w1 : World := set_jobs [reveal_d1] w0.

(** The world of the end-to-end scenario: one clock reading per second
    from 0, one vote for [I1], two cached keys. *)
Definition i1 : World :=
  {| jobs := [];
     clock := fun n => 1000 * Z.of_nat n;
     reads := 0;
     tzOffset := 0;
     nextId := 0;
     dilemmas := [];
     votes := [ {| vote_dilemmaId := "I1"; vote_choice := A |} ];
     cache := {[ "dilemma:today" := (Text "yesterday", Some 3600);
                 "stats:friends:I1:u7" := (Text "stale", Some 60) ]};
     redisUp := true;
     prismaUp := true |}.

(** The world [w] at local midnight, one clock reading per second, with
    the given rows in the table. *)
Definition at_midnight (rows : list Dilemma) (w : World) : World :=
  {| jobs := jobs w;
     clock := fun n => 82800000 + 1000 * Z.of_nat n;
     reads := 0;
     tzOffset := tzOffset w;
     nextId := nextId w;
     dilemmas := rows;
     votes := votes w;
     cache := cache w;
     redisUp := redisUp w;
     prismaUp := prismaUp w |}.

(** The ids, states and [notBefore] of the jobs, and the cached keys. *)
Definition summary (w : World) : list (string * JobState * Z) * list string :=
  ((fun j => (job_id j, job_state j, job_notBefore j)) <$> jobs w,
   (map_to_list (cache w)).*1).

(** The collaborators with the queue unreachable: every call to the queue
    or to one of its jobs is rejected. *)
Definition queue_down : Handler World :=
  fun X call =>
    match call in Eff X return World -> (JsError + X) * World with
    | QueueAdd _ _ _ => fun w => (inl (Error "queue unavailable"), w)
    | QueueGetJob _ => fun w => (inl (Error "queue unavailable"), w)
    | JobRemove _ => fun w => (inl (Error "queue unavailable"), w)
    | call => collaborators _ call
    end.

End Demo.

(** * Properties *)

(** ** Running programs *)

Section Run.
Context {W : Type} (h : Handler W).

Lemma run_bind {R S : Type} (p : Prog R) (f : R -> Prog S) (w : W) :
  run h (bind p f) w =
  let o := run h p w in
  match result o with
  | inr r =>
      let o2 := run h (f r) (world o) in
      {| result := result o2; world := world o2; trace := trace o ++ trace o2 |}
  | inl e => {| result := inl e; world := world o; trace := trace o |}
  end.
Proof.
  revert w. induction p as [r | e | X call k IH]; intros w; simpl.
  - destruct (run h (f r) w); reflexivity.
  - reflexivity.
  - destruct (h X call w) as [x w1]. rewrite IH. simpl.
    destruct (result (run h (k x) w1)); reflexivity.
Qed.

Lemma run_try_catch {R : Type} (p : Prog R) (c : JsError -> Prog R) (w : W) :
  run h (try_catch p c) w =
  let o := run h p w in
  match result o with
  | inr r => {| result := inr r; world := world o; trace := trace o |}
  | inl e =>
      let o2 := run h (c e) (world o) in
      {| result := result o2; world := world o2; trace := trace o ++ trace o2 |}
  end.
Proof.
  revert w. induction p as [r | e | X call k IH]; intros w; simpl.
  - reflexivity.
  - destruct (run h (c e) w); reflexivity.
  - destruct (h X call w) as [x w1]. rewrite IH. simpl.
    destruct (result (run h (k x) w1)); reflexivity.
Qed.

Lemma run_await {X : Type} (call : Eff X) (w : W) :
  run h (await call) w =
  {| result := (h X call w).1; world := (h X call w).2;
     trace := [Called call (h X call w).1] |}.
Proof.
  simpl. destruct (h X call w) as [[e | x] w1]; reflexivity.
Qed.

End Run.

(** ** Scheduling a dilemma *)

Lemma positive_delay_Some (x : option Z) (d : Z) :
  positive_delay x = Some d <-> x = Some d /\ 0 < d.
Proof.
  unfold positive_delay. destruct x as [t |].
  - destruct (Z.ltb_spec 0 t) as [Hlt | Hge]; split.
    + intros [= ->]. split; [reflexivity | exact Hlt].
    + intros [[= ->] _]. reflexivity.
    + discriminate.
    + intros [[= ->] Hd]. lia.
  - split; [discriminate | intros [[=] _]].
Qed.

Lemma positive_delay_None (x : option Z) :
  positive_delay x = None <-> forall d, x = Some d -> d <= 0.
Proof.
  unfold positive_delay. destruct x as [t |].
  - destruct (Z.ltb_spec 0 t) as [Hlt | Hge]; split.
    + discriminate.
    + intros Hall. specialize (Hall t eq_refl). lia.
    + intros _ d [= <-]. exact Hge.
    + reflexivity.
  - split; [intros _ d [=] | reflexivity].
Qed.

Lemma publish_not_reveal (a b : string) : "publish-" +:+ a <> "reveal-" +:+ b.
Proof. discriminate. Qed.

Lemma getJob_remove_same (id : string) (s : list Job) :
  filter (JobStore.has_id id) (JobStore.remove id s) = [].
Proof.
  unfold JobStore.remove. induction s as [| j s IH]; [reflexivity |].
  rewrite filter_cons. destruct (decide (~ JobStore.has_id id j)) as [Hn | Hy].
  - rewrite filter_cons. destruct (decide (JobStore.has_id id j)); [contradiction | exact IH].
  - exact IH.
Qed.

Lemma filter_remove_other (id other : string) (s : list Job) :
  id <> other ->
  filter (JobStore.has_id id) (JobStore.remove other s) = filter (JobStore.has_id id) s.
Proof.
  intros Hne. unfold JobStore.remove. induction s as [| j s IH]; [reflexivity |].
  rewrite !filter_cons.
  destruct (decide (~ JobStore.has_id other j)) as [Hn | Hy].
  - rewrite filter_cons. destruct (decide (JobStore.has_id id j)); by rewrite IH.
  - destruct (decide (JobStore.has_id id j)) as [Hi | Hi]; [| exact IH].
    exfalso. apply Hne. unfold JobStore.has_id in *. 
    destruct (decide (job_id j = other)); [congruence | contradiction].
Qed.

Lemma remove_absent (id : string) (s : list Job) :
  filter (JobStore.has_id id) s = [] -> JobStore.remove id s = s.
Proof.
  unfold JobStore.remove. induction s as [| j s IH]; [reflexivity |].
  rewrite !filter_cons. destruct (decide (JobStore.has_id id j)) as [Hy | Hn].
  - discriminate.
  - intros H. destruct (decide (~ JobStore.has_id id j)); [| contradiction].
    by rewrite IH.
Qed.

Lemma queue_add_future (name : JobName) (data : DilemmaJobData) (id : string)
  (d : Z) (w : World) :
  0 < d ->
  let opts := {| delay := Some d; jobId := Some id; repeat := None |} in
  queue_add name data opts w =
  (inr tt,
   set_jobs (JobStore.arm (time w + d) (new_job (time w) id name data opts)
               :: JobStore.remove id (jobs w)) (tick w)).
Proof.
  intros Hd. unfold queue_add, JobStore.enqueue. simpl.
  destruct (Z.ltb_spec 0 d); [reflexivity | lia].
Qed.

Lemma run_scheduleDilemma (w : World) (id : string) (publishDate revealTime : Date) :
  let now := time w in
  let pd := positive_delay (minus_now (getTime publishDate) now) in
  let rd := positive_delay (minus_now (getTime revealTime) now) in
  run collaborators (SchedulerService.scheduleDilemma id publishDate revealTime) w =
  {| result := inr tt;
     world := put_if reveal "reveal-" id rd (put_if publish "publish-" id pd (tick w));
     trace := Called DateNow (inr now)
                :: add_call publish "publish-" id pd ++ add_call reveal "reveal-" id rd |}.
Proof.
  intros now pd rd. unfold SchedulerService.scheduleDilemma.
  rewrite run_bind, run_await. cbn [result world trace collaborators fst snd].
  fold now. rewrite run_bind. fold pd rd.
  destruct pd as [d1 |] eqn:Hpd.
  - apply positive_delay_Some in Hpd as [_ Hd1].
    rewrite run_await. cbn [result world trace collaborators fst snd].
    rewrite (queue_add_future _ _ _ _ _ Hd1). cbn [result world trace fst snd].
    destruct rd as [d2 |] eqn:Hrd.
    + apply positive_delay_Some in Hrd as [_ Hd2].
      rewrite run_await. cbn [result world trace collaborators fst snd].
      rewrite (queue_add_future _ _ _ _ _ Hd2). reflexivity.
    + reflexivity.
  - cbn [run result world trace].
    destruct rd as [d2 |] eqn:Hrd.
    + apply positive_delay_Some in Hrd as [_ Hd2].
      rewrite run_await. cbn [result world trace collaborators fst snd].
      rewrite (queue_add_future _ _ _ _ _ Hd2). reflexivity.
    + reflexivity.
Qed.

Lemma adds_add_call (name : JobName) (prefix id : string) (d : option Z) :
  adds (add_call name prefix id d) =
  match d with
  | Some d => [add_args name prefix id d]
  | None => []
  end.
Proof. destruct d; reflexivity. Qed.

Lemma adds_app (t1 t2 : list Call) : adds (t1 ++ t2) = adds t1 ++ adds t2.
Proof. unfold adds. apply omap_app. Qed.

Lemma jobs_put (name : JobName) (prefix id : string) (d : Z) (w : World) :
  jobs (put name prefix id d w) =
  scheduled name prefix id (time w) d :: JobStore.remove (prefix +:+ id) (jobs w).
Proof. reflexivity. Qed.

Lemma filter_put_same (name : JobName) (prefix id : string) (d : Z) (w : World) :
  filter (JobStore.has_id (prefix +:+ id)) (jobs (put name prefix id d w)) =
  [scheduled name prefix id (time w) d].
Proof.
  rewrite jobs_put, filter_cons.
  destruct (decide (JobStore.has_id (prefix +:+ id) (scheduled name prefix id (time w) d)))
    as [_ | Hn]; [| exfalso; apply Hn; reflexivity].
  by rewrite getJob_remove_same.
Qed.

Lemma filter_put_other (name : JobName) (prefix id other : string) (d : Z) (w : World) :
  other <> prefix +:+ id ->
  filter (JobStore.has_id other) (jobs (put name prefix id d w)) =
  filter (JobStore.has_id other) (jobs w).
Proof.
  intros Hne. rewrite jobs_put, filter_cons.
  destruct (decide (JobStore.has_id other (scheduled name prefix id (time w) d)))
    as [Hy | _].
  - exfalso. apply Hne. symmetry. exact Hy.
  - by apply filter_remove_other.
Qed.

(** C3.  Every call [scheduleDilemma(dilemmaId, publishDate, revealTime)]
    returns normally; it adds the job [publish-<dilemmaId>] if and only if
    [publishDate - now > 0] and the job [reveal-<dilemmaId>] if and only if
    [revealTime - now > 0], each with that difference as its delay, and it
    adds nothing else.  For a target that is not in the future the jobs of
    that id in the store are what they were before the call: no job is
    produced. *)
Theorem scheduleDilemma_adds_exactly_future_targets
  (w : World) (id : string) (publishDate revealTime : Date) :
  let now := time w in
  let o := run collaborators
             (SchedulerService.scheduleDilemma id publishDate revealTime) w in
  let pd := positive_delay (minus_now (getTime publishDate) now) in
  let rd := positive_delay (minus_now (getTime revealTime) now) in
  result o = inr tt /\
  (enqueued publish ("publish-" +:+ id) (trace o) <->
     exists t, getTime publishDate = Some t /\ 0 < t - now) /\
  (enqueued reveal ("reveal-" +:+ id) (trace o) <->
     exists t, getTime revealTime = Some t /\ 0 < t - now) /\
  adds (trace o) =
    match pd with Some d => [add_args publish "publish-" id d] | None => [] end ++
    match rd with Some d => [add_args reveal "reveal-" id d] | None => [] end /\
  (pd = None ->
     filter (JobStore.has_id ("publish-" +:+ id)) (jobs (world o)) =
     filter (JobStore.has_id ("publish-" +:+ id)) (jobs w)) /\
  (rd = None ->
     filter (JobStore.has_id ("reveal-" +:+ id)) (jobs (world o)) =
     filter (JobStore.has_id ("reveal-" +:+ id)) (jobs w)).
Proof.
  intros now o pd rd. subst o. rewrite run_scheduleDilemma.
  fold now pd rd. cbn [result world trace].
  assert (Hadds :
    adds (Called DateNow (inr now)
            :: add_call publish "publish-" id pd ++ add_call reveal "reveal-" id rd) =
    match pd with Some d => [add_args publish "publish-" id d] | None => [] end ++
    match rd with Some d => [add_args reveal "reveal-" id d] | None => [] end).
  { change (adds (?c :: ?t)) with (adds t).
    by rewrite adds_app, !adds_add_call. }
  assert (Hp : pd = None \/ exists t, getTime publishDate = Some t /\ 0 < t - now
                                      /\ pd = Some (t - now)).
  { subst pd. destruct publishDate as [t |]; cbn; [| by left].
    destruct (Z.ltb_spec 0 (t - now)); [right; eauto | by left]. }
  assert (Hr : rd = None \/ exists t, getTime revealTime = Some t /\ 0 < t - now
                                      /\ rd = Some (t - now)).
  { subst rd. destruct revealTime as [t |]; cbn; [| by left].
    destruct (Z.ltb_spec 0 (t - now)); [right; eauto | by left]. }
  split; [reflexivity |]. unfold enqueued. rewrite Hadds.
  split; [| split; [| split; [reflexivity | split]]].
  - split.
    + intros (data & opts & Hin & Hid).
      destruct Hp as [Hp | (t & Ht & Hlt & _)]; [| eauto].
      rewrite Hp in Hin. destruct rd; cbn in Hin; [| contradiction].
      destruct Hin as [[=] | []].
    + intros (t & Ht & Hlt).
      destruct Hp as [Hp | (t' & Ht' & _ & Hp)].
      * pose proof (proj1 (positive_delay_None _) Hp (t - now)) as Hle.
        rewrite Ht in Hle. specialize (Hle eq_refl). lia.
      * rewrite Hp. eexists _, _. split; [left; reflexivity | reflexivity].
  - split.
    + intros (data & opts & Hin & Hid).
      destruct Hr as [Hr | (t & Ht & Hlt & _)]; [| eauto].
      rewrite Hr in Hin. destruct pd; cbn in Hin; [| contradiction].
      destruct Hin as [[=] | []].
    + intros (t & Ht & Hlt).
      destruct Hr as [Hr | (t' & Ht' & _ & Hr)].
      * pose proof (proj1 (positive_delay_None _) Hr (t - now)) as Hle.
        rewrite Ht in Hle. specialize (Hle eq_refl). lia.
      * rewrite Hr. eexists _, _.
        split; [apply in_or_app; right; left; reflexivity | reflexivity].
  - intros ->. cbn [put_if]. destruct rd as [d |]; cbn [put_if]; [| reflexivity].
    rewrite filter_put_other; [reflexivity | apply publish_not_reveal].
  - intros ->. cbn [put_if]. destruct pd as [d |]; cbn [put_if]; [| reflexivity].
    rewrite filter_put_other; [reflexivity |].
    intros H. symmetry in H. revert H. apply publish_not_reveal.
Qed.

(** ** Unscheduling a dilemma *)

Lemma getJob_Some (id : string) (s : list Job) (j : Job) :
  JobStore.getJob id s = Some j -> job_id j = id /\ j ∈ s.
Proof.
  unfold JobStore.getJob. intros H. apply head_Some_elem_of in H.
  apply list_elem_of_filter in H as [Hid Hin]. split; [exact Hid | exact Hin].
Qed.

Lemma getJob_None (id : string) (s : list Job) :
  JobStore.getJob id s = None <-> filter (JobStore.has_id id) s = [].
Proof. unfold JobStore.getJob. apply head_None. Qed.

Lemma set_jobs_same (w : World) : set_jobs (jobs w) w = w.
Proof. destruct w; reflexivity. Qed.

Ltac run_steps :=
  repeat (progress (rewrite ?run_bind, ?run_await;
                    cbn [result world trace collaborators fst snd run app
                         remove_call])).

Lemma run_unscheduleDilemma (w : World) (id : string) :
  let publishJob := JobStore.getJob ("publish-" +:+ id) (jobs w) in
  let revealJob := JobStore.getJob ("reveal-" +:+ id) (jobs w) in
  run collaborators (SchedulerService.unscheduleDilemma id) w =
  {| result := inr tt;
     world :=
       set_jobs (JobStore.remove ("reveal-" +:+ id)
                   (JobStore.remove ("publish-" +:+ id) (jobs w))) w;
     trace :=
       Called (QueueGetJob ("publish-" +:+ id)) (inr publishJob)
         :: Called (QueueGetJob ("reveal-" +:+ id)) (inr revealJob)
         :: remove_call publishJob ++ remove_call revealJob |}.
Proof.
  intros publishJob revealJob. unfold SchedulerService.unscheduleDilemma, Promise_all2.
  run_steps. fold publishJob revealJob.
  destruct publishJob as [pj |] eqn:Hp.
  - apply getJob_Some in Hp as [Hpid _]. run_steps. rewrite Hpid.
    destruct revealJob as [rj |] eqn:Hrj.
    + apply getJob_Some in Hrj as [Hrid _]. run_steps. rewrite Hrid. reflexivity.
    + run_steps. apply getJob_None in Hrj.
      rewrite (remove_absent ("reveal-" +:+ id)); [reflexivity |].
      rewrite filter_remove_other; [exact Hrj |].
      intros H. symmetry in H. revert H. apply publish_not_reveal.
  - apply getJob_None in Hp. rewrite (remove_absent _ _ Hp). run_steps.
    destruct revealJob as [rj |] eqn:Hrj.
    + apply getJob_Some in Hrj as [Hrid _]. run_steps. rewrite Hrid. reflexivity.
    + apply getJob_None in Hrj. rewrite (remove_absent _ _ Hrj).
      by rewrite set_jobs_same.
Qed.

Lemma removes_remove_call (id : string) (s : list Job) :
  removes (remove_call (JobStore.getJob id s)) = present id s.
Proof.
  unfold present. destruct (JobStore.getJob id s) as [j |] eqn:Hj; [| reflexivity].
  apply getJob_Some in Hj as [<- _]. reflexivity.
Qed.

Lemma unscheduleDilemma_clears (w : World) (id : string) :
  let s := jobs (world (run collaborators (SchedulerService.unscheduleDilemma id) w)) in
  filter (JobStore.has_id ("publish-" +:+ id)) s = [] /\
  filter (JobStore.has_id ("reveal-" +:+ id)) s = [].
Proof.
  intros s. subst s. rewrite run_unscheduleDilemma. cbn [world jobs set_jobs]. split.
  - rewrite filter_remove_other by apply publish_not_reveal.
    apply getJob_remove_same.
  - apply getJob_remove_same.
Qed.

Lemma unscheduleDilemma_absent {W : Type} (h : Handler W) (u : W) (id : string) :
  let a1 := h _ (QueueGetJob ("publish-" +:+ id)) u in
  let a2 := h _ (QueueGetJob ("reveal-" +:+ id)) a1.2 in
  a1.1 = inr None -> a2.1 = inr None ->
  run h (SchedulerService.unscheduleDilemma id) u =
  {| result := inr tt; world := a2.2;
     trace := [ Called (QueueGetJob ("publish-" +:+ id)) (inr None);
                Called (QueueGetJob ("reveal-" +:+ id)) (inr None) ] |}.
Proof.
  intros a1 a2 H1 H2. unfold SchedulerService.unscheduleDilemma, Promise_all2.
  cbn [bind await run]. fold a1. destruct a1 as [x1 u1]. cbn [fst snd] in *. subst x1.
  cbn [bind run]. fold a2. destruct a2 as [x2 u2]. cbn [fst snd] in *. subst x2.
  reflexivity.
Qed.

(** C8.  [unscheduleDilemma(dilemmaId)] always returns normally.  After it
    the store holds no job [publish-<dilemmaId>] and no job
    [reveal-<dilemmaId>], and every other job is kept, in place.  It calls
    [job.remove()] for exactly those of the two jobs that were present;
    when both are absent the world is unchanged.  Calling it a second time
    changes nothing.  Whatever plays the queue, when both lookups answer
    that there is no such job the call makes no other call and returns
    normally. *)
Theorem unscheduleDilemma_removes_both_idempotent
  {W : Type} (h : Handler W) (u : W) (w : World) (id : string) :
  let P := "publish-" +:+ id in
  let R := "reveal-" +:+ id in
  let o := run collaborators (SchedulerService.unscheduleDilemma id) w in
  let o' := run collaborators (SchedulerService.unscheduleDilemma id) (world o) in
  let a1 := h _ (QueueGetJob P) u in
  let a2 := h _ (QueueGetJob R) a1.2 in
  (a1.1 = inr None -> a2.1 = inr None ->
   run h (SchedulerService.unscheduleDilemma id) u =
   {| result := inr tt; world := a2.2;
      trace := [Called (QueueGetJob P) (inr None); Called (QueueGetJob R) (inr None)] |}) /\
  result o = inr tt /\
  JobStore.getJob P (jobs (world o)) = None /\
  JobStore.getJob R (jobs (world o)) = None /\
  jobs (world o) = filter (fun j => job_id j <> P /\ job_id j <> R) (jobs w) /\
  removes (trace o) = present P (jobs w) ++ present R (jobs w) /\
  (JobStore.getJob P (jobs w) = None -> JobStore.getJob R (jobs w) = None ->
   world o = w) /\
  result o' = inr tt /\ world o' = world o /\ removes (trace o') = [].
Proof.
  intros P R o o' a1 a2. split; [apply unscheduleDilemma_absent |].
  assert (Ho : o = _) by apply run_unscheduleDilemma.
  assert (Ho' : o' = _) by apply run_unscheduleDilemma.
  cbv zeta in Ho, Ho'. fold P R in Ho, Ho'.
  destruct (unscheduleDilemma_clears w id) as [HP HR].
  cbv zeta in HP, HR. fold o P R in HP, HR. apply getJob_None in HP, HR.
  split; [by rewrite Ho |]. split; [exact HP |]. split; [exact HR |].
  split; [| split; [| split; [| split; [| split]]]].
  - rewrite Ho. cbn [world jobs set_jobs]. unfold JobStore.remove, JobStore.has_id.
    rewrite list_filter_filter. apply list_filter_iff. intros j. tauto.
  - rewrite Ho. cbn [trace]. change (removes (_ :: _ :: ?t)) with (removes t).
    unfold removes. rewrite omap_app. fold (removes (remove_call (JobStore.getJob P (jobs w)))).
    fold (removes (remove_call (JobStore.getJob R (jobs w)))).
    by rewrite !removes_remove_call.
  - intros Hp Hr. rewrite Ho. cbn [world].
    apply getJob_None in Hp, Hr.
    rewrite (remove_absent P _ Hp), (remove_absent R _ Hr). apply set_jobs_same.
  - by rewrite Ho'.
  - rewrite Ho'. cbn [world].
    apply getJob_None in HP, HR.
    rewrite (remove_absent P _ HP), (remove_absent R _ HR). apply set_jobs_same.
  - rewrite Ho'. cbn [trace]. rewrite HP, HR. reflexivity.
Qed.

(** ** Scheduling again, and rescheduling *)

Lemma time_tick (w : World) : time (tick w) = reading w 1.
Proof. unfold reading, time. cbn. f_equal. lia. Qed.

Lemma reading_tick (w : World) (k : nat) : reading (tick w) k = reading w (S k).
Proof. unfold reading. cbn. f_equal. lia. Qed.

Lemma reading_set_jobs (s : list Job) (w : World) (k : nat) :
  reading (set_jobs s w) k = reading w k.
Proof. reflexivity. Qed.

(** The jobs of the two ids of a dilemma after [scheduleDilemma], from a
    store [s] before it. *)
Lemma scheduleDilemma_jobs (w : World) (id : string) (publishDate revealTime : Date) :
  let now := time w in
  let pd := positive_delay (minus_now (getTime publishDate) now) in
  let rd := positive_delay (minus_now (getTime revealTime) now) in
  let s := jobs (world (run collaborators
             (SchedulerService.scheduleDilemma id publishDate revealTime) w)) in
  filter (JobStore.has_id ("publish-" +:+ id)) s =
    match pd with
    | Some d => [scheduled publish "publish-" id (reading w 1) d]
    | None => filter (JobStore.has_id ("publish-" +:+ id)) (jobs w)
    end /\
  filter (JobStore.has_id ("reveal-" +:+ id)) s =
    match rd with
    | Some d =>
        [scheduled reveal "reveal-" id
           (reading w (match pd with Some _ => 2 | None => 1 end)) d]
    | None => filter (JobStore.has_id ("reveal-" +:+ id)) (jobs w)
    end.
Proof.
  intros now pd rd s. subst s. rewrite run_scheduleDilemma. fold now pd rd.
  cbn [world].
  assert (Hne : "reveal-" +:+ id <> "publish-" +:+ id).
  { intros H. symmetry in H. revert H. apply publish_not_reveal. }
  destruct pd as [d1 |], rd as [d2 |]; cbn [put_if].
  - rewrite filter_put_other by apply publish_not_reveal.
    rewrite !filter_put_same. unfold put. cbn -[reading time].
    change (time (set_jobs ?s ?w)) with (time w).
    by rewrite !time_tick, reading_tick.
  - rewrite filter_put_same, filter_put_other by exact Hne.
    by rewrite time_tick.
  - rewrite filter_put_other by apply publish_not_reveal.
    rewrite filter_put_same. by rewrite time_tick.
  - done.
Qed.

Lemma enqueue_replaces (now : Z) (j : Job) (d : Z) (s : list Job) :
  0 < d ->
  exists s', JobStore.enqueue now j d s = inr s' /\
    filter (JobStore.has_id (job_id j)) s' = [JobStore.arm (now + d) j] /\
    forall other, other <> job_id j ->
      filter (JobStore.has_id other) s' = filter (JobStore.has_id other) s.
Proof.
  intros Hd. unfold JobStore.enqueue.
  destruct (Z.ltb_spec 0 d); [| lia].
  eexists. split; [reflexivity |]. split.
  - rewrite filter_cons.
    destruct (decide (JobStore.has_id (job_id j) (JobStore.arm (now + d) j)))
      as [_ | Hn]; [| exfalso; apply Hn; reflexivity].
    by rewrite getJob_remove_same.
  - intros other Hne. rewrite filter_cons.
    destruct (decide (JobStore.has_id other (JobStore.arm (now + d) j))) as [Hy | _].
    + exfalso. apply Hne. symmetry. exact Hy.
    + by apply filter_remove_other.
Qed.

(** C1.  Two enqueues of the same job id leave exactly one entry of that
    id in the store, the one armed by the second call, whatever the
    timings; and after two calls of [scheduleDilemma] for the same
    dilemma, the second with targets in the future, the store holds
    exactly one job [publish-<id>] and one job [reveal-<id>], both
    pending (so live), whose [notBefore] is the time stamp of the second
    enqueue plus the delay of the second call. *)
Theorem enqueue_same_id_replaces
  (w : World) (id : string) (p1 r1 p2 r2 : Date) (tp tr : Z)
  (s : list Job) (now1 now2 d1 d2 : Z) (j1 j2 : Job) :
  let w1 := world (run collaborators (SchedulerService.scheduleDilemma id p1 r1) w) in
  let now := time w1 in
  let s2 := jobs (world (run collaborators
              (SchedulerService.scheduleDilemma id p2 r2) w1)) in
  (job_id j1 = job_id j2 -> 0 < d1 -> 0 < d2 ->
   exists s1 s2,
     JobStore.enqueue now1 j1 d1 s = inr s1 /\
     JobStore.enqueue now2 j2 d2 s1 = inr s2 /\
     filter (JobStore.has_id (job_id j2)) s2 = [JobStore.arm (now2 + d2) j2] /\
     JobStore.live (JobStore.arm (now2 + d2) j2) /\
     job_notBefore (JobStore.arm (now2 + d2) j2) = now2 + d2) /\
  (getTime p2 = Some tp -> 0 < tp - now ->
   exists j,
     filter (JobStore.has_id ("publish-" +:+ id)) s2 = [j] /\
     JobStore.live j /\ job_state j = Pending /\
     job_notBefore j = reading w1 1 + (tp - now)) /\
  (getTime r2 = Some tr -> 0 < tr - now ->
   exists j,
     filter (JobStore.has_id ("reveal-" +:+ id)) s2 = [j] /\
     JobStore.live j /\ job_state j = Pending /\
     job_notBefore j =
       reading w1 (match positive_delay (minus_now (getTime p2) now) with
                   | Some _ => 2
                   | None => 1
                   end) + (tr - now)).
Proof.
  intros w1 now s2. split; [| split].
  - intros Hid Hd1 Hd2.
    destruct (enqueue_replaces now1 j1 d1 s Hd1) as (s1 & Hs1 & _).
    destruct (enqueue_replaces now2 j2 d2 s1 Hd2) as (s2' & Hs2 & Hone & _).
    exists s1, s2'. repeat split; try done.
  - intros Hp Hlt.
    destruct (scheduleDilemma_jobs w1 id p2 r2) as [Hpub _].
    cbv zeta in Hpub. fold now in Hpub. fold s2 in Hpub.
    rewrite Hp in Hpub. cbn in Hpub.
    destruct (Z.ltb_spec 0 (tp - now)); [| lia].
    eexists. split; [exact Hpub |]. repeat split; done.
  - intros Hr Hlt.
    destruct (scheduleDilemma_jobs w1 id p2 r2) as [_ Hrev].
    cbv zeta in Hrev. fold now in Hrev. fold s2 in Hrev.
    rewrite Hr in Hrev. cbn [minus_now positive_delay] in Hrev.
    destruct (Z.ltb_spec 0 (tr - now)); [| lia].
    eexists. split; [exact Hrev |]. repeat split; done.
Qed.

(** C4.  [rescheduleDilemma] leaves the world that [unscheduleDilemma]
    followed by [scheduleDilemma] leaves, and makes the same calls.  After
    it the store holds, for each of the two ids of the dilemma, only the
    job armed for the new target if that target is in the future, and no
    job otherwise: nothing of the original schedule is left. *)
Theorem rescheduleDilemma_unschedule_then_schedule
  (w : World) (id : string) (publishDate revealTime : Date) :
  let now := time w in
  let pd := positive_delay (minus_now (getTime publishDate) now) in
  let rd := positive_delay (minus_now (getTime revealTime) now) in
  let o := run collaborators
             (SchedulerService.rescheduleDilemma id publishDate revealTime) w in
  let ou := run collaborators (SchedulerService.unscheduleDilemma id) w in
  let os := run collaborators
              (SchedulerService.scheduleDilemma id publishDate revealTime) (world ou) in
  result o = inr tt /\
  world o = world os /\
  trace o = trace ou ++ trace os /\
  filter (JobStore.has_id ("publish-" +:+ id)) (jobs (world o)) =
    match pd with
    | Some d => [scheduled publish "publish-" id (reading w 1) d]
    | None => []
    end /\
  filter (JobStore.has_id ("reveal-" +:+ id)) (jobs (world o)) =
    match rd with
    | Some d =>
        [scheduled reveal "reveal-" id
           (reading w (match pd with Some _ => 2 | None => 1 end)) d]
    | None => []
    end.
Proof.
  intros now pd rd o ou os.
  assert (Hu : ou = _) by apply run_unscheduleDilemma. cbv zeta in Hu.
  assert (Ho : o = {| result := result os; world := world os;
                      trace := trace ou ++ trace os |}).
  { subst o. unfold SchedulerService.rescheduleDilemma. rewrite run_bind.
    cbv zeta. fold ou. rewrite Hu at 1. cbn [result]. reflexivity. }
  assert (Hs : os = _) by apply run_scheduleDilemma. cbv zeta in Hs.
  split; [by rewrite Ho, Hs |]. split; [by rewrite Ho |]. split; [by rewrite Ho |].
  destruct (scheduleDilemma_jobs (world ou) id publishDate revealTime) as [Hpub Hrev].
  cbv zeta in Hpub, Hrev. fold os in Hpub, Hrev.
  assert (Hw : world o = world os) by (by rewrite Ho). rewrite Hw.
  assert (Htime : time (world ou) = now) by (by rewrite Hu).
  assert (Hread : forall k, reading (world ou) k = reading w k) by (by rewrite Hu).
  rewrite Htime, !Hread in Hpub, Hrev. fold pd rd in Hpub, Hrev.
  destruct (unscheduleDilemma_clears w id) as [HP HR].
  cbv zeta in HP, HR. fold ou in HP, HR.
  rewrite HP in Hpub. rewrite HR in Hrev. split; assumption.
Qed.

(** ** Startup recovery *)

Lemma findMany_exactly_future (gt : Z) (rows : list Dilemma) (d : Dilemma) :
  d ∈ findMany gt rows <-> d ∈ rows /\ gt < publishDate d.
Proof.
  unfold findMany. rewrite merge_sort_Permutation, list_elem_of_filter.
  unfold future. tauto.
Qed.

Lemma findMany_sorted (gt : Z) (rows : list Dilemma) :
  Sorted earlier (findMany gt rows).
Proof. unfold findMany. apply Sorted_merge_sort. apply _. Qed.

Lemma run_for_of {W X : Type} (h : Handler W) (body : X -> Prog unit)
  (xs : list X) (w : W) :
  (forall x w, result (run h (body x) w) = inr tt) ->
  run h (for_of xs body) w =
  {| result := inr tt;
     world := foldl (fun w x => world (run h (body x) w)) w xs;
     trace := for_of_trace h body xs w |}.
Proof.
  intros Hok. revert w. induction xs as [| x rest IH]; intros w; [reflexivity |].
  cbn [for_of foldl for_of_trace]. rewrite run_bind. cbv zeta.
  rewrite Hok, IH. reflexivity.
Qed.

Lemma adds_schedule_rows (rows : list Dilemma) (w : World) name data opts :
  In (name, data, opts) (adds (for_of_trace collaborators schedule_row rows w)) ->
  exists d, d ∈ rows /\ data = {| dilemmaId := Some (dilemma_id d) |}.
Proof.
  revert w. induction rows as [| d rest IH]; intros w; [intros [] |].
  cbn [for_of_trace]. rewrite adds_app, in_app_iff. intros [Hin | Hin].
  - exists d. split; [left |].
    unfold schedule_row in Hin. rewrite run_scheduleDilemma in Hin.
    cbn [trace] in Hin. change (adds (_ :: ?t)) with (adds t) in Hin.
    rewrite adds_app, !adds_add_call, in_app_iff in Hin.
    destruct Hin as [Hin | Hin];
      destruct (positive_delay _); cbn in Hin; try contradiction;
      destruct Hin as [[= <- <- <-] | []]; reflexivity.
  - destruct (IH _ Hin) as (d' & Hd' & ->). exists d'. split; [by right | reflexivity].
Qed.

(** C5.  With the database reachable, [scheduleFutureDilemmas] reads the
    clock, asks for the dilemmas whose [publishDate] is greater than that
    reading, and receives exactly the rows of the table that are so dated,
    in ascending order of [publishDate].  It then calls [scheduleDilemma]
    for each of them, in that order, with the row's id, [publishDate] and
    [revealTime], and returns normally.  Every job it adds is for one of
    those rows: a row that is not dated in the future is not considered. *)
Theorem scheduleFutureDilemmas_schedules_exactly_future_rows (w : World) :
  prismaUp w = true ->
  let today := time w in
  let rows := findMany today (dilemmas w) in
  let o := run collaborators SchedulerService.scheduleFutureDilemmas w in
  (forall d, d ∈ rows <-> d ∈ dilemmas w /\ today < publishDate d) /\
  Sorted earlier rows /\
  result o = inr tt /\
  world o =
    foldl (fun w d =>
             world (run collaborators
                      (SchedulerService.scheduleDilemma (dilemma_id d)
                         (DateAt (publishDate d)) (DateAt (revealTime d))) w))
      (tick w) rows /\
  trace o =
    Called DateNow (inr today)
      :: Called (DilemmaFindMany today) (inr rows)
      :: for_of_trace collaborators schedule_row rows (tick w) /\
  (forall name data opts,
     In (name, data, opts) (adds (trace o)) ->
     exists d, d ∈ dilemmas w /\ today < publishDate d /\
               data = {| dilemmaId := Some (dilemma_id d) |}).
Proof.
  intros Hup today rows o.
  assert (Ho : o = {| result := inr tt;
                      world := foldl (fun w d => world (run collaborators (schedule_row d) w))
                                 (tick w) rows;
                      trace := Called DateNow (inr today)
                                 :: Called (DilemmaFindMany today) (inr rows)
                                 :: for_of_trace collaborators schedule_row rows (tick w) |}).
  { subst o. unfold SchedulerService.scheduleFutureDilemmas.
    rewrite run_bind, run_await. cbn [result world trace collaborators fst snd].
    rewrite run_bind, run_await. cbn [result world trace collaborators fst snd].
    unfold prisma. change (prismaUp (tick w)) with (prismaUp w). rewrite Hup.
    cbn [result world trace fst snd].
    change (dilemmas (tick w)) with (dilemmas w). fold today rows.
    rewrite (run_for_of collaborators schedule_row).
    - reflexivity.
    - intros d w'. unfold schedule_row. by rewrite run_scheduleDilemma. }
  split; [intros d; apply findMany_exactly_future |].
  split; [apply findMany_sorted |].
  rewrite Ho. cbn [result world trace]. repeat split.
  intros name data opts Hin. change (adds (_ :: _ :: ?t)) with (adds t) in Hin.
  destruct (adds_schedule_rows _ _ _ _ _ Hin) as (d & Hd & ->).
  apply findMany_exactly_future in Hd as [Hd Hlt]. eauto.
Qed.

(** ** The life of a job in the store *)

Lemma claim_steps (now : Z) (limit : nat) (s : list Job) :
  Forall2 (rtc job_step) s (JobStore.claim now limit s).2.
Proof.
  revert limit. induction s as [| j s IH]; intros limit; [constructor |].
  cbn [JobStore.claim].
  destruct limit as [| limit'].
  - specialize (IH 0%nat). destruct (JobStore.claim now 0 s) as [c r].
    constructor; [reflexivity | exact IH].
  - destruct (job_state j) eqn:Hst.
    2: { specialize (IH limit'). destruct (JobStore.claim now limit' s) as [c r].
         constructor; [| exact IH].
         apply rtc_once. by apply step_start. }
    all: specialize (IH (S limit')); destruct (JobStore.claim now (S limit') s) as [c r];
      (constructor; [reflexivity | exact IH]).
Qed.

Lemma claimDue_steps (now : Z) (limit : nat) (s : list Job) :
  Forall2 (rtc job_step) s (JobStore.claimDue now limit s).2.
Proof.
  unfold JobStore.claimDue.
  pose proof (claim_steps now limit (JobStore.promote now <$> s)) as H.
  rewrite Forall2_fmap_l in H.
  eapply Forall2_impl; [exact H |].
  intros j j' Hj. cbn in Hj. eapply rtc_l; [apply (step_promote now) | exact Hj].
Qed.

Lemma complete_steps (tz now : Z) (id : string) (s : list Job) :
  Forall2 job_step s (JobStore.complete tz now id s).
Proof.
  unfold JobStore.complete. apply Forall2_fmap_r, Forall2_same_length_lookup_2.
  - reflexivity.
  - intros i x y Hx Hy. assert (x = y) as -> by congruence. apply step_complete.
Qed.

Lemma fail_steps (now : Z) (id : string) (s : list Job) :
  Forall2 job_step s (JobStore.fail now id s).
Proof.
  unfold JobStore.fail. apply Forall2_fmap_r, Forall2_same_length_lookup_2.
  - reflexivity.
  - intros i x y Hx Hy. assert (x = y) as -> by congruence. apply step_fail.
Qed.

Lemma failed_is_terminal (j j' : Job) :
  job_state j = Failed -> rtc job_step j j' -> j' = j.
Proof.
  intros Hst Hsteps. induction Hsteps as [j | j j1 j2 Hstep _ IH]; [reflexivity |].
  assert (j1 = j) as ->.
  { destruct Hstep as [now j | now j Hready | tz now id j | now id j].
    - unfold JobStore.promote. by rewrite Hst.
    - congruence.
    - unfold JobStore.complete1. rewrite Hst. by destruct (decide _).
    - unfold JobStore.fail1. rewrite Hst. by destruct (decide _). }
  by apply IH.
Qed.

Lemma apply_ops_steps (ops : list StoreOp) (s : list Job) :
  Forall2 (rtc job_step) s (foldl apply_op s ops).
Proof.
  revert s. induction ops as [| op ops IH]; intros s; cbn [foldl].
  - reflexivity.
  - assert (Hop : Forall2 (rtc job_step) s (apply_op s op)).
    { destruct op as [now limit | tz now id | now id]; cbn [apply_op].
      - apply claimDue_steps.
      - eapply Forall2_impl; [apply complete_steps | apply rtc_once].
      - eapply Forall2_impl; [apply fail_steps | apply rtc_once]. }
    etrans; [exact Hop | apply IH].
Qed.

Lemma failed_stays (ops : list StoreOp) (s : list Job) (i : nat) (j : Job) :
  s !! i = Some j -> job_state j = Failed -> foldl apply_op s ops !! i = Some j.
Proof.
  intros Hi Hst. pose proof (apply_ops_steps ops s) as H.
  destruct (Forall2_lookup_l _ _ _ _ _ H Hi) as (j' & Hj' & Hsteps).
  by rewrite Hj', (failed_is_terminal _ _ Hst Hsteps).
Qed.

(** C2.  A job whose execution attempt fails, with [attempts] counting
    that attempt and [maxAttempts] the 3 of [defaultJobOptions]: if
    [attempts < 3] the RetryPolicy answers a retry after
    [2000 * 2 ^ (attempts - 1)] milliseconds and the job goes back to
    [Pending] with [notBefore] that much after now, to become ready again
    exactly when that delay has elapsed; if [attempts >= 3] the policy
    gives up and the job is [Failed], a state no step of the store
    leaves: it is never started again. *)
Theorem failed_attempt_backoff_or_terminal (now : Z) (j : Job) :
  job_state j = Active ->
  job_maxAttempts j = attempts defaultJobOptions ->
  1 <= job_attempts j ->
  let j' := JobStore.fail1 now (job_id j) j in
  attempts defaultJobOptions = 3 /\
  (job_attempts j < 3 ->
     JobStore.retryPolicy (job_attempts j) (job_maxAttempts j) =
       JobStore.Retry (2000 * 2 ^ (job_attempts j - 1)) /\
     job_state j' = Pending /\
     job_notBefore j' = now + 2000 * 2 ^ (job_attempts j - 1) /\
     job_attempts j' = job_attempts j /\
     (forall t, job_state (JobStore.promote t j') =
                if now + 2000 * 2 ^ (job_attempts j - 1) <=? t then Ready else Pending)) /\
  (3 <= job_attempts j ->
     JobStore.retryPolicy (job_attempts j) (job_maxAttempts j) = JobStore.GiveUp /\
     job_state j' = Failed /\
     (forall j'', rtc job_step j' j'' -> j'' = j') /\
     (forall at_, ~ job_step j' (JobStore.start at_ j')) /\
     (forall ops s i, s !! i = Some j' -> foldl apply_op s ops !! i = Some j')).
Proof.
  intros Hst Hmax Hone j'. split; [reflexivity |].
  subst j'. unfold JobStore.fail1.
  destruct (decide (JobStore.has_id (job_id j) j)) as [_ | Hn];
    [| exfalso; apply Hn; reflexivity].
  rewrite Hst, Hmax. unfold JobStore.retryPolicy. cbn [attempts defaultJobOptions backoff backoff_delay].
  split.
  - intros Hlt. destruct (Z.ltb_spec (job_attempts j) 3); [| lia].
    repeat split. intros t. unfold JobStore.promote. cbn.
    by destruct (_ <=? t).
  - intros Hge. destruct (Z.ltb_spec (job_attempts j) 3); [lia |].
    split; [reflexivity |]. split; [reflexivity |]. split; [| split].
    + intros j''. by apply failed_is_terminal.
    + intros at_ Hstep.
      apply (rtc_once (R := job_step)) in Hstep.
      apply failed_is_terminal in Hstep; [| reflexivity].
      discriminate Hstep.
    + intros ops s i Hi. by apply failed_stays.
Qed.

(** ** The daily job *)

Lemma next_midnight (tz now : Z) :
  let next := ((now + tz) / JobStore.DAY + 1) * JobStore.DAY - tz in
  now < next <= now + JobStore.DAY /\
  (next + tz) mod JobStore.DAY = 0 /\
  (forall t, now < t < next -> (t + tz) mod JobStore.DAY <> 0).
Proof.
  intros next. subst next. unfold JobStore.DAY.
  change (24 * 60 * 60 * 1000) with 86400000.
  pose proof (Z.div_mod (now + tz) 86400000 ltac:(lia)) as Hdm.
  pose proof (Z.mod_pos_bound (now + tz) 86400000 ltac:(lia)) as Hb.
  split; [lia |]. split.
  - replace (((now + tz) / 86400000 + 1) * 86400000 - tz + tz)
      with (((now + tz) / 86400000 + 1) * 86400000) by lia.
    apply Z.mod_mul. lia.
  - intros t Ht Hmid.
    pose proof (Z.div_mod (t + tz) 86400000 ltac:(lia)) as Hdt.
    rewrite Hmid in Hdt. nia.
Qed.

Lemma cronNext_midnight (tz now : Z) :
  JobStore.cronNext tz "0 0 * * *" now =
  Some (((now + tz) / JobStore.DAY + 1) * JobStore.DAY - tz).
Proof. reflexivity. Qed.

Lemma next_midnight_same_day (tz m c : Z) :
  (m + tz) mod JobStore.DAY = 0 -> m <= c < m + JobStore.DAY ->
  ((c + tz) / JobStore.DAY + 1) * JobStore.DAY - tz = m + JobStore.DAY.
Proof.
  unfold JobStore.DAY. change (24 * 60 * 60 * 1000) with 86400000.
  intros Hm Hc.
  pose proof (Z.div_mod (m + tz) 86400000 ltac:(lia)) as Hdm. rewrite Hm in Hdm.
  assert (Hq : (c + tz) / 86400000 = (m + tz) / 86400000).
  { symmetry. apply (Z.div_unique_pos _ _ _ (c - m)); lia. }
  rewrite Hq. lia.
Qed.

(** C7.  [setupDailyCron] returns normally and leaves in the store one job
    [daily-scheduler], pending, whose [notBefore] is the next local
    midnight: the first instant after now at which the local time of day
    is 00:00; the job becomes ready from that instant on, not before.  When an execution of that job that fired at a local
    midnight [m] completes before the following midnight, the job is
    re-armed for [m] plus 24 hours.  Its processor is
    [scheduleFutureDilemmas], the same program [init] runs at startup. *)
Theorem daily_cron_midnight_every_24h (w : World) (m c : Z) (j : Job) :
  let tz := tzOffset w in
  let now := time w in
  let first := ((now + tz) / JobStore.DAY + 1) * JobStore.DAY - tz in
  let o := run collaborators SchedulerService.setupDailyCron w in
  result o = inr tt /\
  filter (JobStore.has_id "daily-scheduler") (jobs (world o)) = [daily_job now first] /\
  (forall t, job_state (JobStore.promote t (daily_job now first)) =
             if first <=? t then Ready else Pending) /\
  now < first <= now + JobStore.DAY /\
  (first + tz) mod JobStore.DAY = 0 /\
  (forall t, now < t < first -> (t + tz) mod JobStore.DAY <> 0) /\
  JobStore.DAY = 24 * 60 * 60 * 1000 /\
  (job_repeat j = Some {| cron := "0 0 * * *" |} ->
   job_state j = Active -> job_notBefore j = m ->
   (m + tz) mod JobStore.DAY = 0 -> m <= c < m + JobStore.DAY ->
   job_state (JobStore.complete1 tz c (job_id j) j) = Pending /\
   job_notBefore (JobStore.complete1 tz c (job_id j) j) = m + JobStore.DAY) /\
  SchedulerService.process daily_scheduler j = SchedulerService.scheduleFutureDilemmas /\
  SchedulerService.init =
    (do* SchedulerService.scheduleFutureDilemmas in SchedulerService.setupDailyCron).
Proof.
  intros tz now first o.
  destruct (next_midnight tz now) as (Hnext & Hmid & Hmin). fold first in Hnext, Hmid, Hmin.
  assert (Ho : o = {| result := inr tt;
                      world := set_jobs (daily_job now first
                                 :: JobStore.remove "daily-scheduler" (jobs w)) (tick w);
                      trace := trace o |}).
  { subst o. unfold SchedulerService.setupDailyCron. rewrite run_await.
    cbn [collaborators]. unfold queue_add.
    cbn [jobId repeat cron tzOffset tick]. rewrite cronNext_midnight.
    fold now tz first. unfold JobStore.enqueue.
    destruct (Z.ltb_spec 0 (first - now)); [| lia].
    cbn [fst snd]. replace (now + (first - now)) with first by lia.
    reflexivity. }
  split; [by rewrite Ho |]. split.
  { rewrite Ho. cbn [world jobs set_jobs]. rewrite filter_cons.
    destruct (decide (JobStore.has_id "daily-scheduler" (daily_job now first)))
      as [_ | Hn]; [| exfalso; apply Hn; reflexivity].
    by rewrite getJob_remove_same. }
  split; [intros t; unfold JobStore.promote; cbn; by destruct (first <=? t) |].
  split; [exact Hnext |]. split; [exact Hmid |]. split; [exact Hmin |].
  split; [reflexivity |]. split; [| split; reflexivity].
  intros Hrep Hst Hnb Hm Hc. unfold JobStore.complete1.
  destruct (decide (JobStore.has_id (job_id j) j)) as [_ | Hn];
    [| exfalso; apply Hn; reflexivity].
  rewrite Hst, Hrep. cbn [cron]. rewrite cronNext_midnight. cbn [job_state job_notBefore].
  split; [reflexivity |]. by apply next_midnight_same_day.
Qed.

(** ** The cache helpers under any collaborators *)

Section Cache.
Context {W : Type} (h : Handler W).

Lemma get_total (key : string) (w : W) :
  let o := run h (CacheService.get key) w in
  exists v, result o = inr v /\ (Exists failed (trace o) -> v = JNull).
Proof.
  cbn -[missing]. destruct (h _ (RedisGet key) w) as [[e | cached] w1]; cbn -[missing].
  - eauto.
  - destruct (missing cached) eqn:Hmiss; cbn; [eauto |].
    destruct cached as [text |]; cbn; [| eauto].
    destruct (h _ (JSONParse text) w1) as [[e | v] w2]; cbn; [eauto |].
    exists v. split; [reflexivity |].
    intros Hex. apply Exists_cons in Hex as [[] | Hex].
    apply Exists_cons in Hex as [[] | Hex]. by apply Exists_nil in Hex.
Qed.

Lemma set_total (key : string) (value : JsValue) (ttl : option Z) (w : W) :
  result (run h (CacheService.set key value ttl) w) = inr tt.
Proof.
  cbn. destruct (h _ (JSONStringify value) w) as [[e | text] w1]; cbn; [reflexivity |].
  destruct ttl as [seconds |]; [destruct (seconds =? 0) |]; cbn.
  - by destruct (h _ (RedisSet key text) w1) as [[e | []] w2].
  - by destruct (h _ (RedisSetex key seconds text) w1) as [[e | []] w2].
  - by destruct (h _ (RedisSet key text) w1) as [[e | []] w2].
Qed.

Lemma del_total (keys : list string) (w : W) :
  result (run h (CacheService.del keys) w) = inr tt.
Proof.
  unfold CacheService.del. destruct (0 <? Z.of_nat (length keys)); cbn; [| reflexivity].
  by destruct (h _ (RedisDel keys) w) as [[e | []] w1].
Qed.

Lemma delPattern_total (pattern : string) (w : W) :
  result (run h (CacheService.delPattern pattern) w) = inr tt.
Proof.
  cbn. destruct (h _ (RedisKeys pattern) w) as [[e | keys] w1]; cbn; [reflexivity |].
  destruct (0 <? Z.of_nat (length keys)); cbn; [| reflexivity].
  by destruct (h _ (RedisDel keys) w1) as [[e | []] w2].
Qed.

Lemma exists_total (key : string) (w : W) :
  let o := run h (CacheService.exists_ key) w in
  exists b, result o = inr b /\ (Exists failed (trace o) -> b = false).
Proof.
  cbn. destruct (h _ (RedisExists key) w) as [[e | n] w1]; cbn; [eauto |].
  exists (n =? 1). split; [reflexivity |].
  intros Hex. apply Exists_cons in Hex as [[] | Hex]. by apply Exists_nil in Hex.
Qed.

Lemma precalculateStats_total (id : string) (w : W) :
  result (run h (SchedulerService.precalculateStats id) w) = inr tt.
Proof.
  unfold SchedulerService.precalculateStats. rewrite run_try_catch. cbv zeta.
  destruct (result (run h _ w)) as [e | []]; reflexivity.
Qed.

Lemma publish_total (job : Job) (w : W) :
  result (run h (SchedulerService.process publish job) w) = inr tt.
Proof.
  cbn [SchedulerService.process]. rewrite run_try_catch. cbv zeta.
  by rewrite del_total.
Qed.

Lemma reveal_run (job : Job) (w : W) :
  let id := template (dilemmaId (job_data job)) in
  let o := run h (SchedulerService.process reveal job) w in
  let o1 := run h (CacheService.delPattern ("stats:*:" +:+ id +:+ "*")) w in
  let o2 := run h (SchedulerService.precalculateStats id) (world o1) in
  o = {| result := inr tt; world := world o2; trace := trace o1 ++ trace o2 |}.
Proof.
  intros id o o1 o2. subst o. cbn [SchedulerService.process]. fold id.
  rewrite run_try_catch, run_bind. cbv zeta. fold o1.
  assert (H1 : result o1 = inr tt) by apply delPattern_total. rewrite H1.
  fold o2. cbn [result world trace].
  assert (H2 : result o2 = inr tt) by apply precalculateStats_total. by rewrite H2.
Qed.

Lemma honest_total {R : Type} (p : Prog R) :
  (forall w, exists r, result (run h p w) = inr r) -> honest h p.
Proof. intros Hp w e He. destruct (Hp w) as [r Hr]. congruence. Qed.

Lemma honest_await {X : Type} (call : Eff X) :
  ~ cache_eff call -> honest h (await call).
Proof.
  intros Hcall w e. rewrite run_await. cbn [result trace].
  destruct (h X call w) as [[e' | x] w1]; cbn [fst]; [| discriminate].
  intros _. apply Exists_cons_hd. split; [exact I | exact Hcall].
Qed.

Lemma honest_bind {R S : Type} (p : Prog R) (f : R -> Prog S) :
  honest h p -> (forall r, honest h (f r)) -> honest h (bind p f).
Proof.
  intros Hp Hf w e. rewrite run_bind. cbv zeta.
  destruct (result (run h p w)) as [e' | r] eqn:Hr; cbn [result trace].
  - intros _. by apply (Hp w e').
  - intros He. apply Exists_app. right. by apply (Hf r _ e).
Qed.

Lemma honest_for_of {X : Type} (xs : list X) (body : X -> Prog unit) :
  (forall x, honest h (body x)) -> honest h (for_of xs body).
Proof.
  intros Hbody. induction xs as [| x rest IH]; cbn [for_of].
  - intros w e [=].
  - apply honest_bind; [apply Hbody | intros _; exact IH].
Qed.

Lemma honest_scheduleDilemma (id : string) (publishDate revealTime : Date) :
  honest h (SchedulerService.scheduleDilemma id publishDate revealTime).
Proof.
  unfold SchedulerService.scheduleDilemma.
  apply honest_bind; [apply honest_await; intros [] |]. intros now.
  apply honest_bind; [| intros _].
  - destruct (positive_delay _); [apply honest_await; intros [] |].
    intros w e [=].
  - destruct (positive_delay _); [apply honest_await; intros [] |].
    intros w e [=].
Qed.

Lemma honest_process (name : JobName) (job : Job) :
  honest h (SchedulerService.process name job).
Proof.
  destruct name.
  - apply honest_total. intros w. exists tt. apply publish_total.
  - apply honest_total. intros w. exists tt.
    pose proof (reveal_run job w) as Hrun. cbv zeta in Hrun. by rewrite Hrun.
  - cbn [SchedulerService.process]. unfold SchedulerService.scheduleFutureDilemmas.
    apply honest_bind; [apply honest_await; intros [] |]. intros today.
    apply honest_bind; [apply honest_await; intros [] |]. intros rows.
    apply honest_for_of. intros d. apply honest_scheduleDilemma.
Qed.

End Cache.

(** C9.  Whatever the collaborators answer, no method of [CacheService]
    throws: [get] returns a value, which is [null] as soon as a call
    underneath failed; [set], [del] and [delPattern] return; [exists]
    returns a boolean, [false] after a failure.  So the
    publish and reveal processors always return, and a processor throws
    only after a call to a collaborator other than the cache store has
    failed: a failure of the cache store alone never fails a job. *)
Theorem CacheService_never_throws {W : Type} (h : Handler W) (w : W)
  (key pattern : string) (keys : list string) (value : JsValue) (ttl : option Z)
  (name : JobName) (job : Job) :
  (exists v, result (run h (CacheService.get key) w) = inr v /\
             (Exists failed (trace (run h (CacheService.get key) w)) -> v = JNull)) /\
  result (run h (CacheService.set key value ttl) w) = inr tt /\
  result (run h (CacheService.del keys) w) = inr tt /\
  result (run h (CacheService.delPattern pattern) w) = inr tt /\
  (exists b, result (run h (CacheService.exists_ key) w) = inr b /\
             (Exists failed (trace (run h (CacheService.exists_ key) w)) -> b = false)) /\
  (name <> daily_scheduler ->
   result (run h (SchedulerService.process name job) w) = inr tt) /\
  (forall e, result (run h (SchedulerService.process name job) w) = inl e ->
   Exists other_failure (trace (run h (SchedulerService.process name job) w))).
Proof.
  split; [apply get_total |]. split; [apply set_total |].
  split; [apply del_total |]. split; [apply delPattern_total |].
  split; [apply exists_total |]. split.
  - intros Hname. destruct name; [apply publish_total | | contradiction].
    pose proof (reveal_run h job w) as Hrun. cbv zeta in Hrun. by rewrite Hrun.
  - intros e. apply honest_process.
Qed.

(** ** Pattern matching of keys *)

Lemma glob_star (pattern text : list ascii) :
  glob ("*"%char :: pattern) text =
  glob pattern text
  || match text with
     | [] => false
     | _ :: text' => glob ("*"%char :: pattern) text'
     end.
Proof. destruct text; reflexivity. Qed.

Lemma glob_cons (c : ascii) (pattern text : list ascii) :
  c <> "*"%char ->
  glob (c :: pattern) text =
  match text with
  | [] => false
  | d :: text' => (Ascii.eqb c "?"%char || Ascii.eqb c d) && glob pattern text'
  end.
Proof.
  intros Hc. cbn [glob]. destruct (Ascii.eqb_spec c "*"%char); [contradiction |].
  reflexivity.
Qed.

Lemma glob_app (p q s t : list ascii) :
  glob p s = true -> glob q t = true -> glob (p ++ q) (s ++ t) = true.
Proof.
  revert s. induction p as [| c p IH]; intros s Hp Hq.
  - destruct s; [exact Hq | discriminate].
  - destruct (Ascii.eqb_spec c "*"%char) as [-> | Hc].
    + induction s as [| d s IHs].
      * rewrite glob_star in Hp. rewrite orb_false_r in Hp.
        change (("*"%char :: p) ++ q) with ("*"%char :: (p ++ q)).
        rewrite glob_star. rewrite (IH [] Hp Hq). reflexivity.
      * rewrite glob_star in Hp. apply orb_true_iff in Hp as [Hp | Hp].
        -- change (("*"%char :: p) ++ q) with ("*"%char :: (p ++ q)).
           rewrite glob_star. rewrite (IH _ Hp Hq). reflexivity.
        -- change (("*"%char :: p) ++ q) with ("*"%char :: (p ++ q)).
           rewrite glob_star. cbn [app].
           change ("*"%char :: (p ++ q)) with (("*"%char :: p) ++ q).
           rewrite (IHs Hp). apply orb_true_r.
    + rewrite glob_cons in Hp by exact Hc.
      destruct s as [| d s]; [discriminate |].
      apply andb_true_iff in Hp as [Hcd Hp].
      change ((c :: p) ++ q) with (c :: (p ++ q)). rewrite glob_cons by exact Hc.
      cbn [app]. rewrite Hcd, (IH _ Hp Hq). reflexivity.
Qed.

Lemma glob_self (s : list ascii) : glob s s = true.
Proof.
  induction s as [| c s IH]; [reflexivity |].
  destruct (Ascii.eqb_spec c "*"%char) as [-> | Hc].
  - rewrite glob_star. rewrite (glob_star s s), IH. cbn. apply orb_true_r.
  - rewrite glob_cons by exact Hc. rewrite Ascii.eqb_refl, orb_true_r. exact IH.
Qed.

Lemma glob_any (s : list ascii) : glob ["*"%char] s = true.
Proof.
  induction s as [| c s IH]; [reflexivity |].
  rewrite glob_star, IH. apply orb_true_r.
Qed.

Lemma list_ascii_app (a b : string) :
  String.list_ascii_of_string (a +:+ b) =
  String.list_ascii_of_string a ++ String.list_ascii_of_string b.
Proof.
  induction a as [| c a IH]; [reflexivity |].
  change (c :: String.list_ascii_of_string (a +:+ b) =
          c :: (String.list_ascii_of_string a ++ String.list_ascii_of_string b)).
  by rewrite IH.
Qed.

Lemma append_empty_r (s : string) : s +:+ "" = s.
Proof.
  induction s as [| c s IH]; [reflexivity |].
  change (String c (s +:+ "") = String c s). by rewrite IH.
Qed.

(** The pattern of the reveal processor matches every statistics key of
    the dilemma. *)
Lemma stats_pattern_matches (id rest kind : string) :
  matches ("stats:*:" +:+ id +:+ "*") ("stats:" +:+ kind +:+ ":" +:+ id +:+ rest) = true.
Proof.
  unfold matches. rewrite !list_ascii_app.
  change (String.list_ascii_of_string "stats:*:")
    with (String.list_ascii_of_string "stats:" ++ ["*"%char] ++ String.list_ascii_of_string ":").
  rewrite <- !app_assoc.
  apply glob_app; [apply glob_self |].
  apply glob_app; [apply glob_any |].
  apply glob_app; [apply glob_self |].
  apply glob_app; [apply glob_self |]. apply glob_any.
Qed.

Lemma stats_keys_match (id : string) :
  matches ("stats:*:" +:+ id +:+ "*") (CACHE_KEYS.STATS_GLOBAL id) = true /\
  (forall filter, matches ("stats:*:" +:+ id +:+ "*")
                    (CACHE_KEYS.STATS_DEMOGRAPHIC id filter) = true) /\
  (forall userId, matches ("stats:*:" +:+ id +:+ "*")
                    (CACHE_KEYS.STATS_FRIENDS id userId) = true).
Proof.
  split; [| split].
  - pose proof (stats_pattern_matches id "" "global") as H.
    rewrite append_empty_r in H. exact H.
  - intros filter. apply (stats_pattern_matches id (":" +:+ filter) "demo").
  - intros userId. apply (stats_pattern_matches id (":" +:+ userId) "friends").
Qed.

(** ** The reveal processor against the modelled Redis *)

Lemma elem_of_keys_matching (pattern : string) (w : World) (k : string) :
  k ∈ keys_matching pattern w <-> matches pattern k = true /\ is_Some (cache w !! k).
Proof.
  unfold keys_matching. rewrite list_elem_of_filter, list_elem_of_fmap.
  split.
  - intros [Hm ([k' v] & -> & Hin)]. apply elem_of_map_to_list in Hin.
    split; [exact Hm | by exists v].
  - intros [Hm [v Hv]]. split; [exact Hm |]. exists (k, v).
    split; [reflexivity | by apply elem_of_map_to_list].
Qed.

Lemma set_cache_same (w : World) : set_cache (cache w) w = w.
Proof. destruct w; reflexivity. Qed.

Lemma run_delPattern_up (pattern : string) (w : World) :
  redisUp w = true ->
  let o := run collaborators (CacheService.delPattern pattern) w in
  result o = inr tt /\
  world o = set_cache (foldr delete (cache w) (keys_matching pattern w)) w /\
  exists rest, trace o = Called (RedisKeys pattern) (inr (keys_matching pattern w)) :: rest.
Proof.
  intros Hup. cbn. unfold redis. rewrite Hup. fold (keys_matching pattern w). cbn.
  destruct (keys_matching pattern w) as [| k ks] eqn:Hkeys; cbn.
  - rewrite set_cache_same. eauto.
  - destruct (Z.ltb_spec 0 (Z.of_nat (S (length ks)))); [| lia].
    cbn. unfold redis. rewrite Hup. cbn. eauto.
Qed.

Lemma run_precalculateStats_up (id : string) (w : World) :
  redisUp w = true -> prismaUp w = true ->
  let totalVotes := count id None (votes w) in
  let votesA := count id (Some A) (votes w) in
  let stats := SchedulerService.stats totalVotes votesA in
  run collaborators (SchedulerService.precalculateStats id) w =
  {| result := inr tt;
     world := set_cache (<["stats:global:" +:+ id := (JsonOf stats, Some 3600)]> (cache w)) w;
     trace := [ Called (VoteCount id None) (inr totalVotes);
                Called (VoteCount id (Some A)) (inr votesA);
                Called (JSONStringify stats) (inr (JsonOf stats));
                Called (RedisSetex ("stats:global:" +:+ id) 3600 (JsonOf stats)) (inr tt) ] |}.
Proof.
  intros Hredis Hprisma.
  repeat (progress (cbn; unfold prisma, redis; rewrite ?Hprisma, ?Hredis)).
  reflexivity.
Qed.

Lemma run_getGlobalStats_miss (id : string) (w : World) :
  redisUp w = true -> prismaUp w = true ->
  cache w !! CACHE_KEYS.STATS_GLOBAL id = None ->
  let totalVotes := count id None (votes w) in
  let votesA := count id (Some A) (votes w) in
  let stats := StatsService.stats totalVotes votesA in
  let o := run collaborators (StatsService.getGlobalStats id) w in
  result o = inr stats /\
  world o = set_cache (<[CACHE_KEYS.STATS_GLOBAL id := (JsonOf stats, Some 60)]> (cache w)) w.
Proof.
  intros Hredis Hprisma Hmiss.
  repeat (progress (cbn -[CACHE_KEYS.STATS_GLOBAL]; unfold prisma, redis;
                    rewrite ?Hprisma, ?Hredis, ?Hmiss)).
  split; reflexivity.
Qed.

Lemma run_getGlobalStats_hit (id : string) (w : World) (v : JsValue) (ttl : option Z) :
  redisUp w = true ->
  cache w !! CACHE_KEYS.STATS_GLOBAL id = Some (JsonOf v, ttl) ->
  truthy v = true ->
  let o := run collaborators (StatsService.getGlobalStats id) w in
  result o = inr v /\ world o = w.
Proof.
  intros Hredis Hhit Htruthy.
  repeat (progress (cbn -[CACHE_KEYS.STATS_GLOBAL truthy]; unfold redis;
                    rewrite ?Hredis, ?Hhit, ?Htruthy)).
  split; reflexivity.
Qed.

Lemma cache_after_reveal (id : string) (w : World) (v : RedisString * option Z) (k : string) :
  let pattern := "stats:*:" +:+ id +:+ "*" in
  let c := <[CACHE_KEYS.STATS_GLOBAL id := v]>
             (foldr delete (cache w) (keys_matching pattern w)) in
  c !! CACHE_KEYS.STATS_GLOBAL id = Some v /\
  (matches pattern k = true -> k <> CACHE_KEYS.STATS_GLOBAL id -> c !! k = None) /\
  (matches pattern k = false -> c !! k = cache w !! k).
Proof.
  intros pattern c. subst c. split; [apply lookup_insert_eq |]. split.
  - intros Hm Hne. rewrite lookup_insert_ne by done.
    destruct (cache w !! k) as [x |] eqn:Hk.
    + apply lookup_foldr_delete. apply elem_of_keys_matching. by rewrite Hk.
    + rewrite lookup_foldr_delete_not_elem_of; [exact Hk |].
      rewrite elem_of_keys_matching, Hk. intros [_ [x [=]]].
  - intros Hm.
    assert (Hne : CACHE_KEYS.STATS_GLOBAL id <> k).
    { intros <-. destruct (stats_keys_match id) as [Hg _]. fold pattern in Hg. congruence. }
    rewrite lookup_insert_ne by done.
    apply lookup_foldr_delete_not_elem_of.
    rewrite elem_of_keys_matching. intros [Hm' _]. congruence.
Qed.

(** C6, as the code has it.  The reveal processor of a job for dilemma
    [id] runs [CacheService.delPattern] for the pattern [stats:*:<id>*]
    and then [precalculateStats id], in that order, and returns normally
    whatever the collaborators answer: both steps catch their own errors,
    so the worker completes the job and the RetryPolicy is not consulted.
    With Redis and the database reachable, the first call is [KEYS] for
    that pattern, every key matching the pattern is deleted, which covers
    every statistics key of the dilemma, and the key [stats:global:<id>]
    then holds the recomputed aggregate for one hour. *)
Theorem reveal_invalidates_recomputes_and_returns
  {W : Type} (h : Handler W) (u : W) (w : World) (job : Job) (id : string) :
  job_name job = reveal ->
  dilemmaId (job_data job) = Some id ->
  let pattern := "stats:*:" +:+ id +:+ "*" in
  let o := run h (SchedulerService.process reveal job) u in
  let o1 := run h (CacheService.delPattern pattern) u in
  let o2 := run h (SchedulerService.precalculateStats id) (world o1) in
  let oc := run collaborators (SchedulerService.process reveal job) w in
  let stats := SchedulerService.stats (count id None (votes w))
                 (count id (Some A) (votes w)) in
  (result o = inr tt /\ world o = world o2 /\ trace o = trace o1 ++ trace o2) /\
  jobs (execute job w) =
    JobStore.complete (tzOffset (world oc)) (time (world oc)) (job_id job)
      (jobs (world oc)) /\
  (matches pattern (CACHE_KEYS.STATS_GLOBAL id) = true /\
   (forall filter, matches pattern (CACHE_KEYS.STATS_DEMOGRAPHIC id filter) = true) /\
   (forall userId, matches pattern (CACHE_KEYS.STATS_FRIENDS id userId) = true)) /\
  (redisUp w = true -> prismaUp w = true ->
   (exists rest,
      trace oc = Called (RedisKeys pattern) (inr (keys_matching pattern w)) :: rest) /\
   cache (world oc) !! CACHE_KEYS.STATS_GLOBAL id = Some (JsonOf stats, Some 3600) /\
   (forall k, matches pattern k = true -> k <> CACHE_KEYS.STATS_GLOBAL id ->
              cache (world oc) !! k = None) /\
   (forall k, matches pattern k = false -> cache (world oc) !! k = cache w !! k)).
Proof.
  intros Hname Hid pattern o o1 o2 oc stats.
  assert (Hrun : forall V (g : Handler V) (v : V),
            run g (SchedulerService.process reveal job) v =
            {| result := inr tt;
               world := world (run g (SchedulerService.precalculateStats id)
                                 (world (run g (CacheService.delPattern pattern) v)));
               trace := trace (run g (CacheService.delPattern pattern) v)
                          ++ trace (run g (SchedulerService.precalculateStats id)
                                      (world (run g (CacheService.delPattern pattern) v))) |}).
  { intros V g v. pose proof (reveal_run g job v) as H. cbv zeta in H.
    rewrite Hid in H. exact H. }
  split; [subst o; rewrite Hrun; auto |].
  split; [unfold execute; rewrite Hname; fold oc; subst oc; rewrite Hrun; reflexivity |].
  split; [apply stats_keys_match |].
  intros Hredis Hprisma. subst oc. rewrite Hrun. cbn [world trace].
  destruct (run_delPattern_up pattern w Hredis) as (_ & Hw1 & rest & Ht1).
  rewrite Hw1, Ht1.
  rewrite run_precalculateStats_up by done. cbn [world trace cache set_cache votes].
  split; [eauto |]. fold stats.
  split; [| split]; intros; by apply cache_after_reveal.
Qed.

(** ** The aggregate of a dilemma *)

(** C10.  From the same two counts, the object [precalculateStats] caches
    and the object [getGlobalStats] computes are the same object:
    [choiceA.count] is [votesA], [choiceB.count] is [totalVotes - votesA],
    and each percentage is [Math.round(count / totalVotes * 100)] when
    [totalVotes > 0] and [0] otherwise.  Both use the key
    [stats:global:<id>].  With Redis and the database reachable,
    [precalculateStats] leaves under that key the object [getGlobalStats]
    returns on a cache miss, and [getGlobalStats] called next returns that
    cached object. *)
Theorem precalculateStats_agrees_with_getGlobalStats
  (w : World) (id : string) (totalVotes votesA : float) :
  let percentage := fun count : float =>
    if (0 <? totalVotes)%float
    then Math_round ((count / totalVotes) * 100)%float else 0%float in
  let counted := SchedulerService.stats (count id None (votes w))
                   (count id (Some A) (votes w)) in
  let wp := world (run collaborators (SchedulerService.precalculateStats id) w) in
  SchedulerService.stats totalVotes votesA = StatsService.stats totalVotes votesA /\
  SchedulerService.stats totalVotes votesA =
    stats_object totalVotes
      votesA (percentage votesA)
      (totalVotes - votesA)%float (percentage (totalVotes - votesA)%float) /\
  "stats:global:" +:+ id = CACHE_KEYS.STATS_GLOBAL id /\
  (redisUp w = true -> prismaUp w = true ->
   cache wp !! CACHE_KEYS.STATS_GLOBAL id = Some (JsonOf counted, Some 3600) /\
   result (run collaborators (StatsService.getGlobalStats id) wp) = inr counted /\
   (cache w !! CACHE_KEYS.STATS_GLOBAL id = None ->
    result (run collaborators (StatsService.getGlobalStats id) w) = inr counted /\
    cache (world (run collaborators (StatsService.getGlobalStats id) w))
      !! CACHE_KEYS.STATS_GLOBAL id = Some (JsonOf counted, Some CACHE_TTL.STATS))).
Proof.
  intros percentage counted wp.
  split; [reflexivity |]. split; [reflexivity |]. split; [reflexivity |].
  intros Hredis Hprisma.
  assert (Hwp : wp = set_cache (<[CACHE_KEYS.STATS_GLOBAL id := (JsonOf counted, Some 3600)]>
                                  (cache w)) w).
  { subst wp. by rewrite run_precalculateStats_up. }
  assert (Hhit : cache wp !! CACHE_KEYS.STATS_GLOBAL id = Some (JsonOf counted, Some 3600)).
  { rewrite Hwp. cbn [cache set_cache]. apply lookup_insert_eq. }
  split; [exact Hhit |]. split.
  - assert (Hup : redisUp wp = true) by (by rewrite Hwp).
    by destruct (run_getGlobalStats_hit id wp counted (Some 3600) Hup Hhit eq_refl).
  - intros Hmiss.
    destruct (run_getGlobalStats_miss id w Hredis Hprisma Hmiss) as [Hres Hworld].
    cbv zeta in Hres, Hworld. split; [exact Hres |].
    rewrite Hworld. cbn [cache set_cache]. apply lookup_insert_eq.
Qed.

(** ** Examples *)

Example Math_round_ties :
  Math_round 0.5 = 1%float /\ Math_round 2.5 = 3%float /\
  Math_round (-2.5) = (-2)%float /\ Math_round (-0.5) = (-0)%float /\
  Math_round ((29 / 200) * 100) = 14%float /\ Math_round ((2 / 3) * 100) = 67%float.
Proof. vm_compute. repeat split; reflexivity. Qed.

(** One vote for A out of three: 33 and 67 percent. *)
Example stats_one_of_three :
  SchedulerService.stats 3 1 = stats_object 3 1 33 2 67.
Proof. vm_compute. reflexivity. Qed.

(** No vote: both percentages are 0. *)
Example stats_no_vote :
  StatsService.stats 0 0 = stats_object 0 0 0 0 0.
Proof. vm_compute. reflexivity. Qed.

(** Startup recovery in the demo world: [d0] is past; [d1] and [d2] are
    scheduled, earliest first. *)
Example recovery_demo :
  let o := run collaborators SchedulerService.scheduleFutureDilemmas Demo.w0 in
  result o = inr tt /\
  (fun j => (job_id j, job_notBefore j)) <$> jobs (world o) =
    [("reveal-d2", 9502); ("publish-d2", 9001); ("reveal-d1", 7002); ("publish-d1", 5001)].
Proof. vm_compute. split; reflexivity. Qed.

(** The daily job with the database unreachable: three attempts, retried
    after 2 and 4 seconds, then failed for good. *)
Example daily_job_exhausts_attempts :
  let armed :=
    Demo.at_midnight []
      (world (run collaborators SchedulerService.setupDailyCron
                (Demo.prisma_down Demo.w0))) in
  let summary (w : World) :=
    (fun j => (job_state j, job_attempts j, job_notBefore j)) <$> jobs w in
  summary armed = [(Pending, 0, 82800000)] /\
  summary (Nat.iter 1 (poll 5) armed) = [(Pending, 1, 82804000)] /\
  summary (Nat.iter 3 (poll 5) armed) = [(Pending, 2, 82810000)] /\
  summary (Nat.iter 7 (poll 5) armed) = [(Failed, 3, 82810000)] /\
  summary (Nat.iter 20 (poll 5) armed) = [(Failed, 3, 82810000)].
Proof. vm_compute. repeat split; reflexivity. Qed.

(** The daily job with the database reachable: at midnight it schedules
    the future row and is re-armed for the next midnight. *)
Example daily_job_reschedules :
  let row := {| dilemma_id := "d9"; publishDate := 90000000; revealTime := 99000000 |} in
  let armed :=
    Demo.at_midnight [row]
      (world (run collaborators SchedulerService.setupDailyCron Demo.w0)) in
  (Demo.summary (poll 5 armed)).1 =
    [ ("reveal-d9", Pending, 99002000); ("publish-d9", Pending, 90001000);
      ("daily-scheduler", Pending, 82800000 + 86400000) ].
Proof. vm_compute. reflexivity. Qed.

(** The end-to-end scenario: [I1] published at 5 s and revealed at 10 s.
    Both jobs are pending after [scheduleDilemma]; the poll after the
    publish job is due completes it and deletes the key of today's
    dilemma; the poll after the reveal job is due completes it, deletes
    the statistics keys of [I1] and caches the aggregate. *)
Example end_to_end_scenario :
  let scheduled :=
    world (run collaborators
             (SchedulerService.scheduleDilemma "I1" (DateAt 5000) (DateAt 10000))
             Demo.i1) in
  Demo.summary scheduled =
    ([("reveal-I1", Pending, 12000); ("publish-I1", Pending, 6000)],
     ["stats:friends:I1:u7"; "dilemma:today"]) /\
  Demo.summary (Nat.iter 3 (poll 1) scheduled) = Demo.summary scheduled /\
  Demo.summary (Nat.iter 4 (poll 1) scheduled) =
    ([("reveal-I1", Pending, 12000); ("publish-I1", Completed, 6000)],
     ["stats:friends:I1:u7"]) /\
  Demo.summary (Nat.iter 9 (poll 1) scheduled) =
    ([("reveal-I1", Completed, 12000); ("publish-I1", Completed, 6000)],
     ["stats:global:I1"]) /\
  cache (Nat.iter 9 (poll 1) scheduled) !! "stats:global:I1" =
    Some (JsonOf (stats_object 1 1 100 0 0), Some 3600).
Proof. vm_compute. repeat split; reflexivity. Qed.

(** ** Witnesses *)

(** Two schedules of [d1] in the demo world: one job [publish-d1], armed
    by the second call. *)
Lemma enqueue_same_id_replaces_witness :
  let first := world (run collaborators
                 (SchedulerService.scheduleDilemma "d1" (DateAt 5000) (DateAt 7000))
                 Demo.w0) in
  let second := world (run collaborators
                  (SchedulerService.scheduleDilemma "d1" (DateAt 8000) (DateAt 9000))
                  first) in
  exists j, filter (JobStore.has_id "publish-d1") (jobs second) = [j] /\
            job_state j = Pending /\ job_notBefore j = 8001.
Proof.
  intros first second.
  destruct (enqueue_same_id_replaces Demo.w0 "d1" (DateAt 5000) (DateAt 7000)
              (DateAt 8000) (DateAt 9000) 8000 9000 [] 0 0 1 1
              Demo.reveal_d1 Demo.reveal_d1) as (_ & Hpublish & _).
  destruct (Hpublish eq_refl eq_refl) as (j & Hone & _ & Hstate & Hnb).
  exists j. split; [exact Hone |]. split; [exact Hstate |].
  rewrite Hnb. reflexivity.
Defined.

(** The reveal job failing at 5 s: retried at 7 s after a first attempt,
    at 9 s after a second, failed after a third. *)
Lemma failed_attempt_backoff_or_terminal_witness :
  job_state (JobStore.fail1 5000 "reveal-d1" Demo.reveal_d1) = Pending /\
  job_notBefore (JobStore.fail1 5000 "reveal-d1" Demo.reveal_d1) = 7000 /\
  job_state (JobStore.fail1 5000 "reveal-d1" (Demo.with_attempts 2 Demo.reveal_d1)) = Pending /\
  job_notBefore (JobStore.fail1 5000 "reveal-d1" (Demo.with_attempts 2 Demo.reveal_d1)) = 9000 /\
  job_state (JobStore.fail1 5000 "reveal-d1" (Demo.with_attempts 3 Demo.reveal_d1)) = Failed.
Proof.
  destruct (failed_attempt_backoff_or_terminal 5000 Demo.reveal_d1
              eq_refl eq_refl ltac:(cbn; lia)) as (_ & Hretry1 & _).
  destruct (Hretry1 ltac:(cbn; lia)) as (_ & Hs1 & Hn1 & _).
  destruct (failed_attempt_backoff_or_terminal 5000 (Demo.with_attempts 2 Demo.reveal_d1)
              eq_refl eq_refl ltac:(cbn; lia)) as (_ & Hretry2 & _).
  destruct (Hretry2 ltac:(cbn; lia)) as (_ & Hs2 & Hn2 & _).
  destruct (failed_attempt_backoff_or_terminal 5000 (Demo.with_attempts 3 Demo.reveal_d1)
              eq_refl eq_refl ltac:(cbn; lia)) as (_ & _ & Hgiveup).
  destruct (Hgiveup ltac:(cbn; lia)) as (_ & Hs3 & _).
  repeat split; assumption.
Defined.

(** Startup recovery in the demo world considers [d1] and [d2]. *)
Lemma scheduleFutureDilemmas_witness :
  prismaUp Demo.w0 = true /\
  dilemma_id <$> findMany (time Demo.w0) (dilemmas Demo.w0) = ["d1"; "d2"] /\
  result (run collaborators SchedulerService.scheduleFutureDilemmas Demo.w0) = inr tt.
Proof.
  split; [reflexivity |]. split; [reflexivity |].
  exact (proj1 (proj2 (proj2
           (scheduleFutureDilemmas_schedules_exactly_future_rows Demo.w0 eq_refl)))).
Defined.

(** The reveal of [d1] in the demo world: the stale demographic key is
    gone and the aggregate is cached. *)
Lemma reveal_invalidates_recomputes_and_returns_witness :
  let o := run collaborators (SchedulerService.process reveal Demo.reveal_d1) Demo.w1 in
  result o = inr tt /\
  cache (world o) !! "stats:global:d1" =
    Some (JsonOf (stats_object 3 1 33 2 67), Some 3600) /\
  cache (world o) !! "stats:demo:d1:18-24" = None.
Proof.
  intros o.
  destruct (reveal_invalidates_recomputes_and_returns collaborators Demo.w1 Demo.w1
              Demo.reveal_d1 "d1" eq_refl eq_refl)
    as ((Hres & _) & _ & _ & Hup).
  destruct (Hup eq_refl eq_refl) as (_ & Hglobal & Hgone & _).
  split; [exact Hres |]. split; [exact Hglobal |].
  apply Hgone; [reflexivity | discriminate].
Defined.

(** The daily job of the demo world: armed for 23:00 UTC, which is local
    midnight, and re-armed 24 hours later when it completes. *)
Lemma daily_cron_midnight_every_24h_witness :
  let o := run collaborators SchedulerService.setupDailyCron Demo.w0 in
  job_notBefore <$> jobs (world o) = [82800000] /\
  job_notBefore
    (JobStore.complete1 3600000 82801234 "daily-scheduler"
       (JobStore.start 82800005 (JobStore.with_state Ready (daily_job 1000 82800000))))
    = 82800000 + 86400000.
Proof.
  intros o. split; [reflexivity |].
  destruct (daily_cron_midnight_every_24h Demo.w0 82800000 82801234
              (JobStore.start 82800005 (JobStore.with_state Ready (daily_job 1000 82800000))))
    as (_ & _ & _ & _ & _ & _ & _ & Hrepeat & _).
  destruct (Hrepeat eq_refl eq_refl eq_refl eq_refl ltac:(unfold JobStore.DAY; lia))
    as [_ Hnext].
  exact Hnext.
Defined.

(** The aggregate of [d1] in the demo world, read back after
    [precalculateStats] and computed on a miss. *)
Lemma precalculateStats_agrees_with_getGlobalStats_witness :
  let wp := world (run collaborators (SchedulerService.precalculateStats "d1") Demo.w0) in
  result (run collaborators (StatsService.getGlobalStats "d1") wp)
    = inr (stats_object 3 1 33 2 67) /\
  result (run collaborators (StatsService.getGlobalStats "d1") Demo.w0)
    = inr (stats_object 3 1 33 2 67).
Proof.
  intros wp.
  destruct (precalculateStats_agrees_with_getGlobalStats Demo.w0 "d1" 3 1)
    as (_ & _ & _ & Hup).
  destruct (Hup eq_refl eq_refl) as (_ & Hcached & Hmiss).
  destruct (Hmiss eq_refl) as [Hcomputed _].
  split; [exact Hcached | exact Hcomputed].
Defined.

(** ** Where the reveal processor departs from the specification *)

(** C6, as the specification states it, fails.  With Redis unreachable the
    first step fails; with the database unreachable the second step
    fails.  In both worlds the processor returns normally and the worker
    marks the job [Completed], with no retry armed. *)
Lemma reveal_step_failure_completes_job :
  let redis_out := Demo.redis_down Demo.w1 in
  let prisma_out := Demo.prisma_down Demo.w1 in
  let o1 := run collaborators (SchedulerService.process reveal Demo.reveal_d1) redis_out in
  let o2 := run collaborators (SchedulerService.process reveal Demo.reveal_d1) prisma_out in
  (Exists failed (trace o1) /\ result o1 = inr tt /\
   jobs (execute Demo.reveal_d1 redis_out) = [JobStore.with_state Completed Demo.reveal_d1]) /\
  (Exists failed (trace o2) /\ result o2 = inr tt /\
   jobs (execute Demo.reveal_d1 prisma_out) = [JobStore.with_state Completed Demo.reveal_d1]).
Proof.
  cbv zeta. split; (split; [| split; reflexivity]).
  - vm_compute. apply Exists_cons_hd. exact I.
  - vm_compute. do 2 apply Exists_cons_tl. apply Exists_cons_hd. exact I.
Qed.

(** * Further properties *)

(** ** The Redis client *)

(** X1.  The reconnection delay is 50 ms per attempt, capped at 2 s: it
    never exceeds 2000, never decreases from one attempt to the next, is
    positive from the first attempt on, and reaches the cap exactly from
    attempt 40. *)
Theorem retryStrategy_capped_monotone (times times' : Z) :
  retryStrategy times <= 2000 /\
  (times <= times' -> retryStrategy times <= retryStrategy times') /\
  (1 <= times -> 50 <= retryStrategy times) /\
  (times <= 40 -> retryStrategy times = times * 50) /\
  (retryStrategy times = 2000 <-> 40 <= times).
Proof. unfold retryStrategy. cbv zeta. lia. Qed.

(** ** The cache helpers, call by call *)

Section CacheCalls.
Context {W : Type} (h : Handler W).

Lemma del_ops (keys : list string) (w : W) :
  redis_ops (trace (run h (CacheService.del keys) w)) =
  match keys with
  | [] => []
  | _ :: _ => [DEL keys]
  end.
Proof.
  unfold CacheService.del. destruct keys as [| k ks]; [reflexivity |].
  destruct (Z.ltb_spec 0 (Z.of_nat (length (k :: ks)))) as [_ | Hlen];
    [| cbn [length] in Hlen; lia].
  cbn. by destruct (h _ (RedisDel (k :: ks)) w) as [[e | []] w1].
Qed.

Lemma delPattern_ops (pattern : string) (w : W) :
  redis_ops (trace (run h (CacheService.delPattern pattern) w)) =
  KEYS pattern ::
  match (h _ (RedisKeys pattern) w).1 with
  | inr (k :: ks) => [DEL (k :: ks)]
  | _ => []
  end.
Proof.
  cbn. destruct (h _ (RedisKeys pattern) w) as [[e | keys] w1]; cbn; [reflexivity |].
  destruct keys as [| k ks]; [reflexivity |].
  destruct (Z.ltb_spec 0 (Z.of_nat (length (k :: ks)))) as [_ | Hlen];
    [| cbn [length] in Hlen; lia].
  cbn. by destruct (h _ (RedisDel (k :: ks)) w1) as [[e | []] w2].
Qed.

Lemma set_ops (key : string) (value : JsValue) (ttl : option Z) (w : W) :
  redis_ops (trace (run h (CacheService.set key value ttl) w)) =
  match (h _ (JSONStringify value) w).1 with
  | inl _ => []
  | inr _ =>
      match expiry ttl with
      | Some seconds => [SETEX key seconds]
      | None => [SET key]
      end
  end.
Proof.
  cbn. destruct (h _ (JSONStringify value) w) as [[e | text] w1]; cbn; [reflexivity |].
  unfold expiry. destruct ttl as [seconds |]; [destruct (seconds =? 0) |]; cbn.
  - by destruct (h _ (RedisSet key text) w1) as [[e | []] w2].
  - by destruct (h _ (RedisSetex key seconds text) w1) as [[e | []] w2].
  - by destruct (h _ (RedisSet key text) w1) as [[e | []] w2].
Qed.

End CacheCalls.

(** X2.  Whatever plays Redis, [CacheService.del] called with no key sends
    nothing, and otherwise sends one [DEL] with exactly its keys;
    [CacheService.delPattern] sends [KEYS] and then one [DEL] with exactly
    the keys [KEYS] answered, and no [DEL] at all when that answer is
    empty or an error.  So neither ever sends a [DEL] without keys. *)
Theorem del_never_sends_empty_DEL {W : Type} (h : Handler W) (w : W)
  (keys : list string) (pattern : string) :
  let answer := (h _ (RedisKeys pattern) w).1 in
  redis_ops (trace (run h (CacheService.del [])%list w)) = [] /\
  (keys <> [] -> redis_ops (trace (run h (CacheService.del keys) w)) = [DEL keys]) /\
  redis_ops (trace (run h (CacheService.delPattern pattern) w)) =
    KEYS pattern ::
    match answer with
    | inr (k :: ks) => [DEL (k :: ks)]
    | _ => []
    end /\
  ~ In (DEL []) (redis_ops (trace (run h (CacheService.del keys) w))) /\
  ~ In (DEL []) (redis_ops (trace (run h (CacheService.delPattern pattern) w))).
Proof.
  intros answer. rewrite !del_ops, delPattern_ops. fold answer.
  split; [reflexivity |]. split; [by destruct keys |]. split; [reflexivity |]. split.
  - destruct keys; cbn; intros H; decompose [or] H; by try discriminate.
  - destruct answer as [e | [| k ks]]; cbn; intros H; decompose [or] H;
      by try discriminate.
Qed.


Lemma run_del_up (keys : list string) (w : World) :
  redisUp w = true ->
  world (run collaborators (CacheService.del keys) w) =
  set_cache (foldr delete (cache w) keys) w.
Proof.
  intros Hup. unfold CacheService.del. destruct keys as [| k ks].
  - cbn. by rewrite set_cache_same.
  - destruct (Z.ltb_spec 0 (Z.of_nat (length (k :: ks)))) as [_ | Hlen];
      [| cbn [length] in Hlen; lia].
    cbn. unfold redis. by rewrite Hup.
Qed.

Lemma run_del_down (keys : list string) (w : World) :
  redisUp w = false -> world (run collaborators (CacheService.del keys) w) = w.
Proof.
  intros Hdown. unfold CacheService.del.
  destruct (0 <? Z.of_nat (length keys)); [| reflexivity].
  cbn. unfold redis. by rewrite Hdown.
Qed.

Lemma run_delPattern_down (pattern : string) (w : World) :
  redisUp w = false -> world (run collaborators (CacheService.delPattern pattern) w) = w.
Proof. intros Hdown. cbn. unfold redis. by rewrite Hdown. Qed.

(** X4.  Against the modelled Redis, reachable, [CacheService.del]
    deletes exactly its keys and [CacheService.delPattern] exactly the
    keys that match its pattern: any other key keeps its value and
    expiry.  With Redis unreachable both leave the world as it is (and
    return normally). *)
Theorem del_deletes_exactly (w : World) (keys : list string) (pattern k : string) :
  let wd := world (run collaborators (CacheService.del keys) w) in
  let wp := world (run collaborators (CacheService.delPattern pattern) w) in
  (redisUp w = true ->
   cache wd !! k = (if decide (k ∈ keys) then None else cache w !! k) /\
   cache wp !! k = (if matches pattern k then None else cache w !! k)) /\
  (redisUp w = false -> wd = w /\ wp = w).
Proof.
  intros wd wp. split.
  - intros Hup. subst wd wp. rewrite (run_del_up keys w Hup).
    destruct (run_delPattern_up pattern w Hup) as (_ & -> & _).
    cbn [cache set_cache]. split.
    + destruct (decide (k ∈ keys)) as [Hin | Hnin].
      * by apply lookup_foldr_delete.
      * by apply lookup_foldr_delete_not_elem_of.
    + destruct (matches pattern k) eqn:Hm.
      * destruct (cache w !! k) as [x |] eqn:Hk.
        -- apply lookup_foldr_delete, elem_of_keys_matching. by rewrite Hk.
        -- rewrite lookup_foldr_delete_not_elem_of; [exact Hk |].
           rewrite elem_of_keys_matching, Hk. intros [_ [x [=]]].
      * apply lookup_foldr_delete_not_elem_of.
        rewrite elem_of_keys_matching. intros [Hm' _]. congruence.
  - intros Hdown. split; [by apply run_del_down | by apply run_delPattern_down].
Qed.

(** X5.  Whatever plays Redis, [CacheService.get] answers [null] without
    calling [JSON.parse] when the key is absent or holds the empty string,
    answers [null] when [JSON.parse] throws on the stored text, and
    otherwise answers what [JSON.parse] returned. *)
Theorem get_null_on_missing_or_corrupt {W : Type} (h : Handler W) (w : W) (key : string) :
  let got := h _ (RedisGet key) w in
  let o := run h (CacheService.get key) w in
  (forall cached, got.1 = inr cached -> missing cached = true ->
     result o = inr JNull /\ world o = got.2 /\
     trace o = [Called (RedisGet key) (inr cached)]) /\
  (forall text, got.1 = inr (Some text) -> missing (Some text) = false ->
     let parsed := h _ (JSONParse text) got.2 in
     result o = inr (match parsed.1 with inr v => v | inl _ => JNull end) /\
     world o = parsed.2 /\
     trace o = [Called (RedisGet key) (inr (Some text));
                Called (JSONParse text) parsed.1]).
Proof.
  intros got o. subst o. unfold CacheService.get.
  cbn -[missing]. fold got. destruct got as [x w1]. cbn [fst snd]. split.
  - intros cached Hx Hmiss. subst x. cbn -[missing]. rewrite Hmiss. cbn. done.
  - intros text Hx Hmiss. subst x. cbn -[missing]. rewrite Hmiss. cbn.
    by destruct (h _ (JSONParse text) w1) as [[e | v] w2].
Qed.

(** ** The publish processor *)

Lemma run_rethrow {W R : Type} (h : Handler W) (p : Prog R) (w : W) :
  run h (try_catch p (fun error => Throw error)) w = run h p w.
Proof.
  rewrite run_try_catch. cbv zeta. destruct (run h p w) as [[e | r] w' t]; cbn.
  - by rewrite app_nil_r.
  - reflexivity.
Qed.

Lemma delete_today_tomorrow (c : gmap string (RedisString * option Z)) (k : string) :
  foldr delete c ["dilemma:today"; "dilemma:tomorrow"] !! k =
  if decide (k = "dilemma:today" \/ k = "dilemma:tomorrow") then None else c !! k.
Proof.
  destruct (decide (k = "dilemma:today" \/ k = "dilemma:tomorrow")) as [Hk | Hk].
  - apply lookup_foldr_delete. rewrite !elem_of_cons. tauto.
  - apply lookup_foldr_delete_not_elem_of. rewrite !elem_of_cons, elem_of_nil. tauto.
Qed.

Lemma del_quiet {W : Type} (h : Handler W) (keys : list string) (w : W) :
  let t := trace (run h (CacheService.del keys) w) in
  db_queries t = [] /\ adds t = [] /\ removes t = [].
Proof.
  unfold CacheService.del. destruct (0 <? Z.of_nat (length keys)); [| done].
  cbn. by destruct (h _ (RedisDel keys) w) as [[e | []] w1].
Qed.

(** X6.  Whatever plays the collaborators, the publish processor sends one
    Redis command, the [DEL] of [dilemma:today] and [dilemma:tomorrow],
    queries nothing, adds and removes no job, and returns normally,
    whichever job it runs for.  Against the modelled Redis, reachable, the
    two keys are gone and every other key is as before; run a second time
    it changes nothing. *)
Theorem publish_invalidates_today_and_tomorrow
  {W : Type} (h : Handler W) (u : W) (w : World) (job job' : Job) (k : string) :
  let o := run h (SchedulerService.process publish job) u in
  let w' := world (run collaborators (SchedulerService.process publish job) w) in
  result o = inr tt /\
  redis_ops (trace o) = [DEL ["dilemma:today"; "dilemma:tomorrow"]] /\
  db_queries (trace o) = [] /\ adds (trace o) = [] /\ removes (trace o) = [] /\
  (redisUp w = true ->
   cache w' !! k =
     if decide (k = "dilemma:today" \/ k = "dilemma:tomorrow") then None
     else cache w !! k) /\
  world (run collaborators (SchedulerService.process publish job') w') = w'.
Proof.
  intros o w'. subst o w'. cbn [SchedulerService.process]. rewrite !run_rethrow.
  split; [apply del_total |]. split; [apply del_ops |].
  split; [| split; [| split]].
  1-3: apply del_quiet.
  destruct (redisUp w) eqn:Hup.
  - rewrite (run_del_up _ w Hup). cbn [cache set_cache]. split.
    + intros _. apply delete_today_tomorrow.
    + rewrite run_del_up by exact Hup. cbn [cache set_cache]. unfold set_cache.
      cbn [jobs clock reads tzOffset nextId dilemmas votes redisUp prismaUp].
      f_equal. apply map_eq. intros i. rewrite !delete_today_tomorrow.
      by destruct (decide _).
  - rewrite (run_del_down _ w Hup). split; [discriminate |].
    by apply run_del_down.
Qed.

(** ** The aggregate, call by call *)

Lemma precalculateStats_trace {W : Type} (h : Handler W) (w : W) (id : string) :
  trace (run h (SchedulerService.precalculateStats id) w) =
  let total := h _ (VoteCount id None) w in
  Called (VoteCount id None) total.1 ::
  match total.1 with
  | inl _ => []
  | inr t =>
      let votesA := h _ (VoteCount id (Some A)) total.2 in
      Called (VoteCount id (Some A)) votesA.1 ::
      match votesA.1 with
      | inl _ => []
      | inr a =>
          trace (run h (CacheService.set ("stats:global:" +:+ id)
                          (SchedulerService.stats t a) (Some 3600)) votesA.2)
      end
  end.
Proof.
  unfold SchedulerService.precalculateStats.
  rewrite run_try_catch, run_bind, run_await. cbv zeta. cbn [result world trace].
  destruct (h _ (VoteCount id None) w) as [[e | t] w1]; cbn [fst snd result world trace];
    [reflexivity |].
  rewrite run_bind, run_await. cbv zeta. cbn [result world trace].
  destruct (h _ (VoteCount id (Some A)) w1) as [[e | a] w2];
    cbn [fst snd result world trace app]; [reflexivity |].
  set (o := run h (CacheService.set _ _ _) w2).
  by destruct (result o); cbn [trace app]; rewrite ?app_nil_r.
Qed.

(** X7.  Whatever plays the collaborators, [precalculateStats] returns
    normally and sends Redis at most one command, the [SETEX] of
    [stats:global:<id>] for 3600 seconds; it sends none when either count
    fails or when [JSON.stringify] throws, so a failure of the database
    never overwrites what is cached: after a failed count nothing more is
    called.  It adds and removes no job. *)
Theorem precalculateStats_writes_only_after_counts
  {W : Type} (h : Handler W) (w : W) (id : string) :
  let o := run h (SchedulerService.precalculateStats id) w in
  let total := h _ (VoteCount id None) w in
  let votesA := h _ (VoteCount id (Some A)) total.2 in
  result o = inr tt /\
  redis_ops (trace o) =
    match total.1, votesA.1 with
    | inr t, inr a =>
        match (h _ (JSONStringify (SchedulerService.stats t a)) votesA.2).1 with
        | inr _ => [SETEX ("stats:global:" +:+ id) 3600]
        | inl _ => []
        end
    | _, _ => []
    end /\
  (forall e, total.1 = inl e -> trace o = [Called (VoteCount id None) (inl e)]) /\
  (forall t e, total.1 = inr t -> votesA.1 = inl e ->
     trace o = [Called (VoteCount id None) (inr t);
                Called (VoteCount id (Some A)) (inl e)]) /\
  adds (trace o) = [] /\ removes (trace o) = [].
Proof.
  intros o total votesA. split; [apply precalculateStats_total |]. subst o.
  rewrite precalculateStats_trace. cbv zeta. fold total.
  destruct total.1 as [e | t] eqn:Htotal.
  { repeat split; try done. by intros e' [= <-]. }
  fold votesA. destruct votesA.1 as [e | a] eqn:HvotesA.
  { repeat split; try done. by intros t' e' [= <-] [= <-]. }
  pose proof (set_ops h ("stats:global:" +:+ id) (SchedulerService.stats t a) (Some 3600)
                votesA.2) as Hops.
  split; [| split; [done |]; split; [done |]].
  - change (redis_ops (_ :: _ :: ?x)) with (redis_ops x). rewrite Hops.
    by destruct (h _ (JSONStringify _) votesA.2).1.
  - cbn -[SchedulerService.stats].
    destruct (h _ (JSONStringify (SchedulerService.stats t a)) votesA.2)
      as [[e | text] w4]; cbn; [done |].
    by destruct (h _ (RedisSetex _ _ _) w4) as [[e | []] w5].
Qed.

(** ** Reading the aggregate *)



(** X9.  Against the modelled collaborators: with Redis unreachable and
    the database up, [getGlobalStats] still answers the aggregate counted
    from the votes, and changes nothing; with the database down and
    nothing to read in the cache, it throws the database's error and
    changes nothing; and an entry that is not the JSON of a truthy value
    (an unparsable text, a cached [null]) is treated as a miss and
    replaced by the aggregate, for 60 seconds. *)
Theorem getGlobalStats_outages (w : World) (id : string) :
  let key := CACHE_KEYS.STATS_GLOBAL id in
  let o := run collaborators (StatsService.getGlobalStats id) w in
  let counted :=
    StatsService.stats (count id None (votes w)) (count id (Some A) (votes w)) in
  (redisUp w = false -> prismaUp w = true -> result o = inr counted /\ world o = w) /\
  (prismaUp w = false -> redisUp w = false \/ cache w !! key = None ->
   result o = inl prisma_down /\ world o = w) /\
  (redisUp w = true -> prismaUp w = true ->
   forall (x : RedisString) (ttl : option Z),
     cache w !! key = Some (x, ttl) ->
     (forall v, x = JsonOf v -> truthy v = false) ->
     result o = inr counted /\
     world o = set_cache (<[key := (JsonOf counted, Some 60)]> (cache w)) w).
Proof.
  intros key o counted. subst o. split; [| split].
  - intros Hredis Hprisma.
    repeat (progress (cbn -[CACHE_KEYS.STATS_GLOBAL]; unfold prisma, redis;
                      rewrite ?Hprisma, ?Hredis)).
    done.
  - intros Hprisma [Hredis | Hmiss].
    + repeat (progress (cbn -[CACHE_KEYS.STATS_GLOBAL]; unfold prisma, redis;
                        rewrite ?Hprisma, ?Hredis)).
      done.
    + fold key. destruct (redisUp w) eqn:Hredis;
        repeat (progress (cbn -[CACHE_KEYS.STATS_GLOBAL]; unfold prisma, redis; fold key;
                          rewrite ?Hprisma, ?Hredis, ?Hmiss));
        done.
  - intros Hredis Hprisma x ttl Hx Hfalsy. fold key.
    destruct x as [s | v].
    + destruct (String.eqb s "") eqn:Hs;
        repeat (progress (cbn -[CACHE_KEYS.STATS_GLOBAL String.eqb]; unfold prisma, redis;
                          fold key; rewrite ?Hprisma, ?Hredis, ?Hx, ?Hs));
        done.
    + pose proof (Hfalsy v eq_refl) as Hv.
      repeat (progress (cbn -[CACHE_KEYS.STATS_GLOBAL truthy]; unfold prisma, redis;
                        fold key; rewrite ?Hprisma, ?Hredis, ?Hx, ?Hv)).
      done.
Qed.

(** ** Starting the scheduler *)

Lemma run_setupDailyCron (w : World) :
  let now := time w in
  let first := ((now + tzOffset w) / JobStore.DAY + 1) * JobStore.DAY - tzOffset w in
  run collaborators SchedulerService.setupDailyCron w =
  {| result := inr tt;
     world := set_jobs (daily_job now first :: JobStore.remove "daily-scheduler" (jobs w))
                (tick w);
     trace := [Called (QueueAdd daily_scheduler {| dilemmaId := None |}
                         {| delay := None; jobId := Some "daily-scheduler";
                            repeat := Some {| cron := "0 0 * * *" |} |}) (inr tt)] |}.
Proof.
  intros now first.
  destruct (next_midnight (tzOffset w) now) as (Hnext & _). fold first in Hnext.
  unfold SchedulerService.setupDailyCron. rewrite run_await.
  cbn [collaborators]. unfold queue_add.
  cbn [jobId repeat cron tzOffset tick]. rewrite cronNext_midnight.
  fold now first. unfold JobStore.enqueue.
  destruct (Z.ltb_spec 0 (first - now)); [| lia].
  cbn [fst snd]. replace (now + (first - now)) with first by lia.
  reflexivity.
Qed.

Lemma run_scheduleFutureDilemmas (w : World) :
  prismaUp w = true ->
  let today := time w in
  let rows := findMany today (dilemmas w) in
  run collaborators SchedulerService.scheduleFutureDilemmas w =
  {| result := inr tt;
     world := foldl (fun w d => world (run collaborators (schedule_row d) w)) (tick w) rows;
     trace := Called DateNow (inr today)
                :: Called (DilemmaFindMany today) (inr rows)
                :: for_of_trace collaborators schedule_row rows (tick w) |}.
Proof.
  intros Hup today rows. unfold SchedulerService.scheduleFutureDilemmas.
  rewrite run_bind, run_await. cbn [result world trace collaborators fst snd].
  rewrite run_bind, run_await. cbn [result world trace collaborators fst snd].
  unfold prisma. change (prismaUp (tick w)) with (prismaUp w). rewrite Hup.
  cbn [result world trace fst snd].
  change (dilemmas (tick w)) with (dilemmas w). fold today rows.
  rewrite (run_for_of collaborators schedule_row).
  - reflexivity.
  - intros d w'. unfold schedule_row. by rewrite run_scheduleDilemma.
Qed.

Lemma scheduleFutureDilemmas_fails {W : Type} (h : Handler W) (u : W) :
  let now := h _ DateNow u in
  match now.1 with
  | inl e =>
      run h SchedulerService.scheduleFutureDilemmas u =
      {| result := inl e; world := now.2; trace := [Called DateNow (inl e)] |}
  | inr today =>
      let rows := h _ (DilemmaFindMany today) now.2 in
      match rows.1 with
      | inl e =>
          run h SchedulerService.scheduleFutureDilemmas u =
          {| result := inl e; world := rows.2;
             trace := [Called DateNow (inr today);
                       Called (DilemmaFindMany today) (inl e)] |}
      | inr _ => True
      end
  end.
Proof.
  intros now. unfold SchedulerService.scheduleFutureDilemmas.
  rewrite run_bind, run_await. cbv zeta. cbn [result world trace]. fold now.
  destruct now as [[e | today] u1]; cbn [fst snd]; [reflexivity |].
  rewrite run_bind, run_await. cbv zeta. cbn [result world trace].
  destruct (h _ (DilemmaFindMany today) u1) as [[e | rows] u2]; cbn [fst snd]; done.
Qed.

(** X10.  [init] arms the daily cron only after the recovery pass has
    returned.  Whatever plays the collaborators, when the clock or
    [findMany] fails, [init] throws that error and [queue.add] is never
    called: the [daily-scheduler] job is not armed.  Against the modelled
    collaborators with the database up, [init] returns normally; its last
    call is the [queue.add] of the [daily-scheduler] job; the store then
    holds exactly one job of that id, pending until the first local
    midnight after the clock reading the queue stamps it with; and the
    jobs of every other id are those the recovery pass left. *)
Theorem init_arms_cron_after_recovery
  {W : Type} (h : Handler W) (u : W) (w : World) :
  let now := h _ DateNow u in
  let o := run collaborators SchedulerService.init w in
  let pass := run collaborators SchedulerService.scheduleFutureDilemmas w in
  let stamp := time (world pass) in
  let first := ((stamp + tzOffset w) / JobStore.DAY + 1) * JobStore.DAY - tzOffset w in
  (forall e, now.1 = inl e ->
     result (run h SchedulerService.init u) = inl e /\
     adds (trace (run h SchedulerService.init u)) = []) /\
  (forall today e, now.1 = inr today ->
     (h _ (DilemmaFindMany today) now.2).1 = inl e ->
     result (run h SchedulerService.init u) = inl e /\
     adds (trace (run h SchedulerService.init u)) = []) /\
  (prismaUp w = false ->
   result o = inl prisma_down /\ jobs (world o) = jobs w) /\
  (prismaUp w = true ->
   result o = inr tt /\
   last (adds (trace o)) =
     Some (daily_scheduler, {| dilemmaId := None |},
           {| delay := None; jobId := Some "daily-scheduler";
              repeat := Some {| cron := "0 0 * * *" |} |}) /\
   filter (JobStore.has_id "daily-scheduler") (jobs (world o)) = [daily_job stamp first] /\
   stamp < first <= stamp + JobStore.DAY /\
   forall other, other <> "daily-scheduler" ->
     filter (JobStore.has_id other) (jobs (world o)) =
     filter (JobStore.has_id other) (jobs (world pass))).
Proof.
  intros now o pass stamp first. unfold SchedulerService.init.
  pose proof (scheduleFutureDilemmas_fails h u) as Hfail. cbv zeta in Hfail. fold now in Hfail.
  split; [| split; [| split]].
  - intros e He. rewrite He in Hfail. rewrite run_bind. cbv zeta. by rewrite Hfail.
  - intros today e Hnow Hrows. rewrite Hnow in Hfail. rewrite Hrows in Hfail.
    rewrite run_bind. cbv zeta. by rewrite Hfail.
  - intros Hdown. subst o. unfold SchedulerService.init.
    pose proof (scheduleFutureDilemmas_fails collaborators w) as Hw. cbv zeta in Hw.
    cbn [collaborators fst snd] in Hw. unfold prisma in Hw.
    change (prismaUp (tick w)) with (prismaUp w) in Hw. rewrite Hdown in Hw.
    cbn [fst snd] in Hw. rewrite run_bind. cbv zeta. by rewrite Hw.
  - intros Hup. subst o. unfold SchedulerService.init.
    pose proof (run_scheduleFutureDilemmas w Hup) as Hpass. cbv zeta in Hpass.
    fold pass in Hpass.
    rewrite run_bind. cbv zeta. fold pass.
    assert (Hres : result pass = inr tt) by (by rewrite Hpass). rewrite Hres.
    rewrite run_setupDailyCron. cbn [result world trace].
    assert (Htz : tzOffset (world pass) = tzOffset w).
    { rewrite Hpass. cbn [world]. clear.
      generalize (findMany (time w) (dilemmas w)).
      assert (Hgen : forall rows v, tzOffset (foldl (fun w d =>
                  world (run collaborators (schedule_row d) w)) v rows) = tzOffset v).
      { induction rows as [| d rows IH]; intros v; [reflexivity |].
        cbn [foldl]. rewrite IH. unfold schedule_row. rewrite run_scheduleDilemma.
        cbn [world]. by destruct (positive_delay _), (positive_delay _). }
      intros rows. by rewrite Hgen. }
    rewrite Htz. fold stamp first.
    split; [reflexivity |]. split.
    { rewrite adds_app. cbn. by rewrite last_snoc. }
    split.
    { cbn [world jobs set_jobs]. rewrite filter_cons.
      destruct (decide (JobStore.has_id "daily-scheduler" (daily_job stamp first)))
        as [_ | Hn]; [| exfalso; apply Hn; reflexivity].
      by rewrite getJob_remove_same. }
    split.
    { destruct (next_midnight (tzOffset w) stamp) as (Hnext & _). exact Hnext. }
    intros other Hne. cbn [world jobs set_jobs]. rewrite filter_cons.
    destruct (decide (JobStore.has_id other (daily_job stamp first))) as [Hy | _].
    + exfalso. apply Hne. symmetry. exact Hy.
    + by apply filter_remove_other.
Qed.

(** ** The jobs of the other dilemmas *)

Lemma append_same_prefix (prefix a b : string) : prefix +:+ a = prefix +:+ b -> a = b.
Proof.
  induction prefix as [| c prefix IH]; [done |].
  intros H. apply IH. by injection H.
Qed.

Lemma others_remove (id x : string) (s : list Job) :
  x = "publish-" +:+ id \/ x = "reveal-" +:+ id ->
  others id (JobStore.remove x s) = others id s.
Proof.
  intros Hx. unfold others, JobStore.remove, JobStore.has_id.
  induction s as [| j s IH]; [reflexivity |].
  rewrite !filter_cons.
  destruct (decide (job_id j <> x)) as [Hn | Hy].
  - rewrite filter_cons. by rewrite IH.
  - rewrite IH. destruct (decide _) as [[H1 H2] | _]; [| reflexivity].
    exfalso. apply Hy. intros Heq. by destruct Hx as [-> | ->].
Qed.

Lemma others_cons_own (id : string) (j : Job) (s : list Job) :
  job_id j = "publish-" +:+ id \/ job_id j = "reveal-" +:+ id ->
  others id (j :: s) = others id s.
Proof.
  intros Hj. unfold others. rewrite filter_cons.
  destruct (decide _) as [[H1 H2] | _]; [| reflexivity].
  by destruct Hj.
Qed.

Lemma remove_both (id : string) (s : list Job) :
  JobStore.remove ("reveal-" +:+ id) (JobStore.remove ("publish-" +:+ id) s) = others id s.
Proof.
  unfold others, JobStore.remove, JobStore.has_id.
  induction s as [| j s IH]; [reflexivity |].
  rewrite !filter_cons.
  destruct (decide (job_id j <> "publish-" +:+ id)) as [Hp | Hp].
  - rewrite filter_cons. rewrite IH.
    destruct (decide (job_id j <> "reveal-" +:+ id)) as [Hr | Hr].
    + by destruct (decide _) as [_ | Hn]; [| exfalso; apply Hn].
    + by destruct (decide _) as [[_ Hn] | _].
  - rewrite IH. by destruct (decide _) as [[Hn _] | _].
Qed.

Lemma others_absent (id : string) (s : list Job) :
  JobStore.getJob ("publish-" +:+ id) s = None ->
  JobStore.getJob ("reveal-" +:+ id) s = None ->
  others id s = s.
Proof.
  intros Hp Hr. apply getJob_None in Hp, Hr.
  rewrite <- remove_both. rewrite (remove_absent _ _ Hp). by apply remove_absent.
Qed.

Lemma filter_others (id x : string) (s : list Job) :
  x <> "publish-" +:+ id -> x <> "reveal-" +:+ id ->
  filter (JobStore.has_id x) (others id s) = filter (JobStore.has_id x) s.
Proof.
  intros Hp Hr. rewrite <- remove_both.
  rewrite filter_remove_other by exact Hr. by apply filter_remove_other.
Qed.

Lemma others_put_if (name : JobName) (prefix id : string) (d : option Z) (w : World) :
  prefix = "publish-" \/ prefix = "reveal-" ->
  others id (jobs (put_if name prefix id d w)) = others id (jobs w).
Proof.
  intros Hprefix. destruct d as [d |]; [| reflexivity].
  cbn [put_if]. rewrite jobs_put.
  assert (Hid : prefix +:+ id = "publish-" +:+ id \/ prefix +:+ id = "reveal-" +:+ id)
    by (destruct Hprefix as [-> | ->]; [by left | by right]).
  rewrite others_cons_own by exact Hid. by apply others_remove.
Qed.

Lemma put_if_frame (name : JobName) (prefix id : string) (d : option Z) (w : World) :
  let w' := put_if name prefix id d w in
  cache w' = cache w /\ dilemmas w' = dilemmas w /\ votes w' = votes w.
Proof. by destruct d. Qed.

Lemma run_rescheduleDilemma (w : World) (id : string) (publishDate revealTime : Date) :
  let o1 := run collaborators (SchedulerService.unscheduleDilemma id) w in
  let o2 := run collaborators
              (SchedulerService.scheduleDilemma id publishDate revealTime) (world o1) in
  run collaborators (SchedulerService.rescheduleDilemma id publishDate revealTime) w =
  {| result := inr tt; world := world o2; trace := trace o1 ++ trace o2 |}.
Proof.
  intros o1 o2. unfold SchedulerService.rescheduleDilemma. rewrite run_bind. cbv zeta.
  fold o1. assert (H1 : result o1 = inr tt) by (subst o1; by rewrite run_unscheduleDilemma).
  rewrite H1. fold o2.
  assert (H2 : result o2 = inr tt) by (subst o2; by rewrite run_scheduleDilemma).
  by rewrite H2.
Qed.

(** X11.  Scheduling, unscheduling and rescheduling a dilemma touch the
    two jobs of that dilemma and nothing else: the other jobs of the store
    are the same, in the same order, and the cache and the tables are
    untouched.  In particular the jobs of any other dilemma and the
    [daily-scheduler] job are what they were. *)
Theorem scheduling_touches_only_own_jobs
  (w : World) (id : string) (publishDate revealTime : Date) (prog : Prog unit) :
  prog = SchedulerService.scheduleDilemma id publishDate revealTime \/
  prog = SchedulerService.unscheduleDilemma id \/
  prog = SchedulerService.rescheduleDilemma id publishDate revealTime ->
  let w' := world (run collaborators prog w) in
  others id (jobs w') = others id (jobs w) /\
  cache w' = cache w /\ dilemmas w' = dilemmas w /\ votes w' = votes w /\
  (forall other, other <> id ->
     filter (JobStore.has_id ("publish-" +:+ other)) (jobs w') =
       filter (JobStore.has_id ("publish-" +:+ other)) (jobs w) /\
     filter (JobStore.has_id ("reveal-" +:+ other)) (jobs w') =
       filter (JobStore.has_id ("reveal-" +:+ other)) (jobs w)) /\
  filter (JobStore.has_id "daily-scheduler") (jobs w') =
    filter (JobStore.has_id "daily-scheduler") (jobs w).
Proof.
  intros Hprog w'.
  assert (Hothers : others id (jobs w') = others id (jobs w) /\
                    cache w' = cache w /\ dilemmas w' = dilemmas w /\ votes w' = votes w).
  { subst w'. destruct Hprog as [-> | [-> | ->]].
    - rewrite run_scheduleDilemma. cbn [world].
      rewrite !others_put_if by tauto.
      repeat split; by destruct (positive_delay _), (positive_delay _).
    - rewrite run_unscheduleDilemma. cbn [world jobs set_jobs].
      by rewrite !others_remove by tauto.
    - rewrite run_rescheduleDilemma. cbv zeta. cbn [world].
      rewrite run_scheduleDilemma, run_unscheduleDilemma. cbn [world].
      rewrite !others_put_if by tauto. cbn [jobs tick set_jobs].
      rewrite !others_remove by tauto.
      repeat split; by destruct (positive_delay _), (positive_delay _). }
  destruct Hothers as (Hothers & Hc & Hd & Hv).
  split; [exact Hothers |]. split; [exact Hc |]. split; [exact Hd |]. split; [exact Hv |].
  assert (Hframe : forall x, x <> "publish-" +:+ id -> x <> "reveal-" +:+ id ->
            filter (JobStore.has_id x) (jobs w') = filter (JobStore.has_id x) (jobs w)).
  { intros x Hp Hr. rewrite <- (filter_others id x (jobs w')), Hothers by done.
    by apply filter_others. }
  split.
  - intros other Hne. split; apply Hframe.
    + intros H. by apply append_same_prefix in H.
    + apply publish_not_reveal.
    + intros H. symmetry in H. revert H. apply publish_not_reveal.
    + intros H. by apply append_same_prefix in H.
  - apply Hframe; discriminate.
Qed.

(** X12.  Unscheduling undoes scheduling: after [scheduleDilemma] then
    [unscheduleDilemma] for the same dilemma the store holds the jobs it
    held before other than the two of that dilemma, in the same order,
    whatever the two dates; so when the store held neither job before,
    the store is as it was. *)
Theorem unscheduleDilemma_undoes_scheduleDilemma
  (w : World) (id : string) (publishDate revealTime : Date) :
  let o := run collaborators
             (do* SchedulerService.scheduleDilemma id publishDate revealTime in
              SchedulerService.unscheduleDilemma id) w in
  result o = inr tt /\
  jobs (world o) = others id (jobs w) /\
  (JobStore.getJob ("publish-" +:+ id) (jobs w) = None ->
   JobStore.getJob ("reveal-" +:+ id) (jobs w) = None ->
   jobs (world o) = jobs w).
Proof.
  intros o.
  assert (Ho : result o = inr tt /\ jobs (world o) = others id (jobs w)).
  { subst o. rewrite run_bind. cbv zeta. rewrite run_scheduleDilemma.
    cbn [result world trace]. rewrite run_unscheduleDilemma. cbn [result world jobs set_jobs].
    split; [reflexivity |].
    rewrite remove_both. by rewrite !others_put_if by tauto. }
  destruct Ho as [Hres Hjobs]. split; [exact Hres |]. split; [exact Hjobs |].
  intros Hp Hr. rewrite Hjobs. by apply others_absent.
Qed.

(** ** When the queue fails *)


Lemma run_for_of_fails {W X : Type} (h : Handler W) (body : X -> Prog unit)
  (x : X) (rest : list X) (w : W) (e : JsError) :
  result (run h (body x) w) = inl e ->
  run h (for_of (x :: rest) body) w = run h (body x) w.
Proof.
  intros He. cbn [for_of]. rewrite run_bind. cbv zeta. rewrite He.
  destruct (run h (body x) w) as [r w' t]. cbn in *. by subst r.
Qed.

(** X14.  Whatever plays the queue, when the [queue.add] of the publish
    job fails, [scheduleDilemma] throws that error and does not try to
    add the reveal job; and the loop of [scheduleFutureDilemmas] stops at
    the first row whose scheduling throws: the rows after it are not
    scheduled in that pass. *)
Theorem scheduleDilemma_failed_publish_skips_reveal
  {W : Type} (h : Handler W) (u : W) (row : Dilemma) (rest : list Dilemma)
  (now d : Z) (e : JsError) :
  let id := dilemma_id row in
  let clock := h _ DateNow u in
  let add := h _ (QueueAdd publish {| dilemmaId := Some id |}
                    {| delay := Some d; jobId := Some ("publish-" +:+ id);
                       repeat := None |}) clock.2 in
  let o := run h (SchedulerService.scheduleDilemma id (DateAt (publishDate row))
                    (DateAt (revealTime row))) u in
  clock.1 = inr now -> publishDate row - now = d -> 0 < d -> add.1 = inl e ->
  result o = inl e /\
  adds (trace o) = [add_args publish "publish-" id d] /\
  run h (for_of (row :: rest) schedule_row) u = o.
Proof.
  intros id clock add o Hnow Hd Hpos Hadd.
  assert (Ho : result o = inl e /\ adds (trace o) = [add_args publish "publish-" id d]).
  { subst o. unfold SchedulerService.scheduleDilemma.
    rewrite run_bind, run_await. cbv zeta. cbn [result world trace]. fold clock.
    rewrite Hnow. cbn [getTime minus_now]. rewrite Hd.
    assert (Hp : positive_delay (Some d) = Some d).
    { apply positive_delay_Some. by split. }
    rewrite Hp. rewrite run_bind, run_await. cbv zeta. cbn [result world trace].
    fold id add. rewrite Hadd. cbn [result trace app]. done. }
  destruct Ho as [Hres Hadds]. split; [exact Hres |]. split; [exact Hadds |].
  by apply (run_for_of_fails h schedule_row row rest u e).
Qed.

(** ** Presence of a key *)

(** X15.  Whatever plays Redis, [CacheService.exists] sends the one
    command [EXISTS key] and answers [true] only when Redis answered
    exactly 1; any other answer, and any failure, gives [false].  Against
    the modelled Redis it answers whether the key is present, [false]
    when Redis is unreachable, and changes nothing; after
    [CacheService.del] of keys among which the key is, it answers
    [false]. *)
Theorem exists_reflects_presence
  {W : Type} (h : Handler W) (u : W) (w : World) (key : string) (keys : list string) :
  let answer := h _ (RedisExists key) u in
  let o := run h (CacheService.exists_ key) u in
  let m := run collaborators (CacheService.exists_ key) w in
  result o = inr (match answer.1 with inr n => n =? 1 | inl _ => false end) /\
  redis_ops (trace o) = [EXISTS key] /\
  result m = inr (match cache w !! key with Some _ => redisUp w | None => false end) /\
  world m = w /\
  (redisUp w = true ->
   result (run collaborators
             (do* CacheService.del (key :: keys) in CacheService.exists_ key) w)
     = inr false).
Proof.
  intros answer o m. subst o m. split; [| split; [| split; [| split]]].
  - cbn. fold answer. by destruct answer as [[e | n] u1].
  - cbn. fold answer. by destruct answer as [[e | n] u1].
  - cbn. unfold redis. by destruct (redisUp w), (cache w !! key).
  - cbn. unfold redis. by destruct (redisUp w).
  - intros Hup. rewrite run_bind. cbv zeta. rewrite del_total. cbn [result].
    rewrite run_del_up by exact Hup.
    cbn. unfold redis. cbn. rewrite Hup. cbn.
    by rewrite lookup_delete_eq.
Qed.

(** ** Revealed results *)




(** ** Ages *)

Lemma calculateAge_ge (today birthDate : LocalDate) (k : Z) :
  k <= StatsService.calculateAge today birthDate <->
  ~ before today (anniversary k birthDate).
Proof.
  unfold StatsService.calculateAge, before, anniversary. cbv zeta.
  cbn [getFullYear getMonth getDate].
  destruct (Z.ltb_spec (getMonth today - getMonth birthDate) 0);
    destruct (Z.eqb_spec (getMonth today - getMonth birthDate) 0);
    destruct (Z.ltb_spec (getDate today) (getDate birthDate));
    cbn [orb andb]; lia.
Qed.

Lemma getAgeRange_bands (age : Z) :
  (StatsService.getAgeRange age = "0-17" <-> age < 18) /\
  (StatsService.getAgeRange age = "18-24" <-> 18 <= age < 25) /\
  (StatsService.getAgeRange age = "25-34" <-> 25 <= age < 35) /\
  (StatsService.getAgeRange age = "35-49" <-> 35 <= age < 50) /\
  (StatsService.getAgeRange age = "50-64" <-> 50 <= age < 65) /\
  (StatsService.getAgeRange age = "65+" <-> 65 <= age).
Proof.
  unfold StatsService.getAgeRange.
  destruct (Z.ltb_spec age 18); [repeat split; (lia || discriminate || done) |].
  destruct (Z.ltb_spec age 25); [repeat split; (lia || discriminate || done) |].
  destruct (Z.ltb_spec age 35); [repeat split; (lia || discriminate || done) |].
  destruct (Z.ltb_spec age 50); [repeat split; (lia || discriminate || done) |].
  destruct (Z.ltb_spec age 65); repeat split; (lia || discriminate || done).
Qed.

(** X17.  [calculateAge] counts the birthdays reached: the age is at
    least [k] exactly when today is not before the [k]-th anniversary of
    the birth date, so it is the one [k] with today on or after the
    [k]-th anniversary and before the next; it goes up by one on the
    birthday itself, and is negative for a birth date after today. *)
Theorem calculateAge_counts_birthdays (today birthDate : LocalDate) (k : Z) :
  let age := StatsService.calculateAge today birthDate in
  (k <= age <-> ~ before today (anniversary k birthDate)) /\
  (k = age <->
     ~ before today (anniversary k birthDate) /\
     before today (anniversary (k + 1) birthDate)) /\
  StatsService.calculateAge (anniversary k birthDate) birthDate = k /\
  (age < 0 <-> before today birthDate).
Proof.
  intros age. subst age.
  pose proof (calculateAge_ge today birthDate k) as Hk.
  pose proof (calculateAge_ge today birthDate (k + 1)) as Hk1.
  pose proof (calculateAge_ge today birthDate 0) as H0.
  split; [exact Hk |]. split; [| split].
  - split.
    + intros ->. split; [apply Hk; lia |].
      destruct (decide (before today (anniversary
                  (StatsService.calculateAge today birthDate + 1) birthDate)))
        as [Hb | Hb]; [exact Hb |].
      apply Hk1 in Hb. lia.
    + intros [Hge Hlt]. apply Hk in Hge.
      assert (~ k + 1 <= StatsService.calculateAge today birthDate)
        by (intros Hle; by apply Hk1 in Hle).
      lia.
  - unfold StatsService.calculateAge, anniversary. cbn [getFullYear getMonth getDate].
    rewrite Z.sub_diag, Z.ltb_irrefl, Z.eqb_refl, Z.ltb_irrefl. cbn. lia.
  - assert (Hb : before today birthDate <-> before today (anniversary 0 birthDate)).
    { unfold before, anniversary. cbn [getFullYear getMonth getDate].
      by rewrite Z.add_0_r. }
    rewrite Hb. split.
    + intros Hneg.
      destruct (decide (before today (anniversary 0 birthDate))) as [Hd | Hd];
        [exact Hd |].
      apply H0 in Hd. lia.
    + intros Hd. assert (~ 0 <= StatsService.calculateAge today birthDate)
        by (intros Hle; by apply H0 in Hle).
      lia.
Qed.

(** X18.  The age range of a user, [getAgeRange(calculateAge(birthDate))],
    is decided by birthdays: ["0-17"] until the 18th birthday (a birth
    date after today included), ["18-24"] from the 18th birthday until
    the 25th, and so on, ["65+"] from the 65th birthday; the six ranges
    cover every age and no age gets two of them. *)
Theorem age_range_by_birthdays (today birthDate : LocalDate) :
  let range := StatsService.getAgeRange (StatsService.calculateAge today birthDate) in
  let reached k := ~ before today (anniversary k birthDate) in
  (range = "0-17" <-> ~ reached 18) /\
  (range = "18-24" <-> reached 18 /\ ~ reached 25) /\
  (range = "25-34" <-> reached 25 /\ ~ reached 35) /\
  (range = "35-49" <-> reached 35 /\ ~ reached 50) /\
  (range = "50-64" <-> reached 50 /\ ~ reached 65) /\
  (range = "65+" <-> reached 65) /\
  range ∈ ["0-17"; "18-24"; "25-34"; "35-49"; "50-64"; "65+"].
Proof.
  intros range reached. subst range reached. cbv beta.
  pose proof (getAgeRange_bands (StatsService.calculateAge today birthDate))
    as (B0 & B1 & B2 & B3 & B4 & B5).
  rewrite B0, B1, B2, B3, B4, B5.
  rewrite <- !calculateAge_ge.
  repeat split; try lia.
  unfold StatsService.getAgeRange. rewrite !elem_of_cons.
  repeat (destruct (_ <? _); [tauto |]). tauto.
Qed.

(** ** The reach of the reveal pattern *)

Lemma matches_literal (c : ascii) (pattern key : string) :
  c <> "*"%char -> c <> "?"%char ->
  matches (String c pattern) key = true ->
  exists key', key = String c key' /\ matches pattern key' = true.
Proof.
  intros Hstar Hany. unfold matches. cbn [String.list_ascii_of_string].
  rewrite glob_cons by exact Hstar.
  destruct key as [| d key']; cbn [String.list_ascii_of_string]; [discriminate |].
  destruct (Ascii.eqb_spec c "?"%char) as [-> | _]; [contradiction |].
  destruct (Ascii.eqb_spec c d) as [-> | _]; [| discriminate].
  cbn. eauto.
Qed.

Lemma reveal_pattern_stats_only (id key : string) :
  matches ("stats:*:" +:+ id +:+ "*") key = true -> exists rest, key = "stats:" +:+ rest.
Proof.
  intros H. cbn in H.
  repeat (apply matches_literal in H as (? & -> & H); [| discriminate | discriminate]).
  cbn. eauto.
Qed.

Lemma append_associative (a b c : string) : a +:+ (b +:+ c) = (a +:+ b) +:+ c.
Proof.
  induction a as [| x a IH]; [reflexivity |].
  change (String x (a +:+ (b +:+ c)) = String x ((a +:+ b) +:+ c)). by rewrite IH.
Qed.

(** X19.  The pattern [stats:*:<id>*] whose keys the reveal processor
    deletes matches keys of the [stats:] family only: never
    [dilemma:today], [dilemma:tomorrow], a [dilemma:<id>] key or a
    [user:<id>] key.  Within that family it reaches further than the
    dilemma revealed: it also matches the statistics keys of any dilemma
    whose id begins with [<id>], and the friends key of any dilemma for a
    user whose id begins with [<id>]. *)
Theorem reveal_pattern_reach (id key x suffix : string) :
  let pattern := "stats:*:" +:+ id +:+ "*" in
  (matches pattern key = true -> exists rest, key = "stats:" +:+ rest) /\
  matches pattern CACHE_KEYS.DILEMMA_TODAY = false /\
  matches pattern CACHE_KEYS.DILEMMA_TOMORROW = false /\
  matches pattern (CACHE_KEYS.DILEMMA_BY_ID x) = false /\
  matches pattern (CACHE_KEYS.USER_PROFILE x) = false /\
  matches pattern (CACHE_KEYS.STATS_GLOBAL (id +:+ suffix)) = true /\
  matches pattern (CACHE_KEYS.STATS_DEMOGRAPHIC (id +:+ suffix) x) = true /\
  matches pattern (CACHE_KEYS.STATS_FRIENDS x (id +:+ suffix)) = true.
Proof.
  intros pattern. subst pattern.
  assert (Hnot : forall k, (forall rest, k <> "stats:" +:+ rest) ->
            matches ("stats:*:" +:+ id +:+ "*") k = false).
  { intros k Hk. apply not_true_is_false. intros Hm.
    destruct (reveal_pattern_stats_only id k Hm) as [rest ->]. by apply (Hk rest). }
  split; [apply reveal_pattern_stats_only |].
  split; [by apply Hnot |]. split; [by apply Hnot |].
  split; [by apply Hnot |]. split; [by apply Hnot |].
  split; [| split].
  - apply (stats_pattern_matches id suffix "global").
  - unfold CACHE_KEYS.STATS_DEMOGRAPHIC.
    pose proof (stats_pattern_matches id (suffix +:+ ":" +:+ x) "demo") as H.
    by rewrite <- !append_associative in *.
  - unfold CACHE_KEYS.STATS_FRIENDS.
    pose proof (stats_pattern_matches id suffix ("friends:" +:+ x)) as H.
    by rewrite <- !append_associative in *.
Qed.

(** ** The window of the history *)

(** X20.  The number of days of history [getHistory] goes back: a user
    who is not premium never gets more than 7 days, whatever [days] is
    asked, and gets exactly what is asked from 1 to 7; a premium user gets
    what is asked, and 365 days when nothing, [NaN] or 0 is asked.  A
    negative [days] is passed on as it is for both. *)
Theorem limitDays_caps_free_users (isPremium : bool) (days : option Z) (d : Z) :
  DilemmaService.limitDays false days <= 7 /\
  (1 <= d <= 7 -> DilemmaService.limitDays false (Some d) = d) /\
  (7 <= d -> DilemmaService.limitDays false (Some d) = 7) /\
  (d <> 0 -> DilemmaService.limitDays true (Some d) = d) /\
  DilemmaService.limitDays true (Some 0) = 365 /\
  DilemmaService.limitDays true None = 365 /\
  DilemmaService.limitDays false (Some 0) = 7 /\
  DilemmaService.limitDays false None = 7 /\
  (d < 0 -> DilemmaService.limitDays isPremium (Some d) = d) /\
  DilemmaService.limitDays false days <= DilemmaService.limitDays true days.
Proof.
  unfold DilemmaService.limitDays, DilemmaService.or_default.
  repeat split; intros; destruct isPremium, days as [v |];
    repeat match goal with
           | |- context [?a =? 0] => destruct (Z.eqb_spec a 0)
           end;
    lia.
Qed.

(** ** The further properties at work *)

(** Rescheduling [d2] in the demo world leaves the claimed reveal job of
    [d1] and the cache as they are. *)
Lemma scheduling_touches_only_own_jobs_witness :
  let w' := world (run collaborators
                     (SchedulerService.rescheduleDilemma "d2" (DateAt 9000) (DateAt 9500))
                     Demo.w1) in
  filter (JobStore.has_id "reveal-d1") (jobs w') = [Demo.reveal_d1] /\
  cache w' = cache Demo.w1.
Proof.
  intros w'.
  destruct (scheduling_touches_only_own_jobs Demo.w1 "d2" (DateAt 9000) (DateAt 9500)
              (SchedulerService.rescheduleDilemma "d2" (DateAt 9000) (DateAt 9500))
              (or_intror (or_intror eq_refl)))
    as (_ & Hcache & _ & _ & Hother & _).
  destruct (Hother "d1" ltac:(discriminate)) as [_ Hreveal].
  split; [| exact Hcache].
  etrans; [exact Hreveal | reflexivity].
Defined.



(** With the queue unreachable, the recovery loop over [d1] and [d2] in
    the demo world stops at the publish job of [d1]. *)
Lemma scheduleDilemma_failed_publish_skips_reveal_witness :
  let d1 := {| dilemma_id := "d1"; publishDate := 5000; revealTime := 7000 |} in
  let d2 := {| dilemma_id := "d2"; publishDate := 9000; revealTime := 9500 |} in
  let o := run Demo.queue_down (for_of [d1; d2] schedule_row) Demo.w0 in
  result o = inl (Error "queue unavailable") /\
  adds (trace o) = [add_args publish "publish-" "d1" 4000].
Proof.
  intros d1 d2 o.
  destruct (scheduleDilemma_failed_publish_skips_reveal Demo.queue_down Demo.w0
              d1 [d2] 1000 4000 (Error "queue unavailable")
              eq_refl eq_refl ltac:(lia) eq_refl)
    as (Hres & Hadds & Hfor).
  fold o in Hfor. rewrite Hfor. split; [exact Hres | exact Hadds].
Defined.
